(** * metrics-mock: request-to-variant resolution and synthetic values

    A shallow embedding of [main.go]: the header gate [MatchHeaders], the
    variant resolver [GetVersion], the value generator [getValue] and the
    handler built by [getHandlerFunc], followed by the properties the
    specification states about them.

    Representation choices.
    - [float64] is Rocq's primitive binary64 [float]; its operations are
      related to the IEEE 754 specification [SpecFloat] by the axioms of
      [FloatAxioms].
    - Go maps are [gmap]s; a [range] over a map is a loop over the list of
      its entries, and the result is shown not to depend on their order.
    - Logging ([log.Info], [log.Warn]), the random source and panics are the
      effects of the program: they are threaded through the monad [M].
    - What the program imports and [src/] does not contain (regexp, the
      canonical form of a header name, the Beta sampler) is the interface
      [Runtime]. *)

From Stdlib Require Import ZArith NArith Ascii String Floats Uint63 Lia.
From stdpp Require Import base option list gmap strings.

Local Open Scope Z_scope.
Local Open Scope string_scope.
Local Set Warnings "-inexact-float".

(** ** Data model (main.go, lines 112-140) *)

(** [Param]: name and value of a query parameter; [Value] is a pattern. *)
Record Param := { Name : string; Value : string }.

(** [MetricInfo]; the field [Type] of the source is [Type_] here. *)
Record MetricInfo := {
  Type_ : string;
  Rate : float;
  Shift : float;
  Multiplier : float;
  Alpha : float;
  Beta : float
}.

Record VersionInfo := { Params : list Param; Metric : MetricInfo }.

Record URIConf := {
  Versions : list VersionInfo;
  Headers : gmap string string;
  URI : string;
  Provider : string
}.

(** ** Requests

    [Header] is [http.Header], a map from canonical header names to the
    values received. [QueryPairs] is the query string of [req.URL] after
    splitting and unescaping: its (key, value) pairs, in order. *)
Record Request := {
  Header : gmap string (list string);
  QueryPairs : list (string * string)
}.

(** [url.Values]. [req.URL.Query()] builds it with
    [m[key] = append(m[key], value)], pair after pair. *)
Definition Values_add (m : gmap string (list string)) (kv : string * string)
  : gmap string (list string) :=
  <[kv.1 := (default [] (m !! kv.1) ++ [kv.2])%list]> m.

Definition Query (req : Request) : gmap string (list string) :=
  foldl Values_add ∅ (QueryPairs req).

(** ** The imported packages *)

(** What a call comes to: a value, or a panic with its message. *)
Inductive Outcome (A : Type) :=
| Return (a : A)
| Panic (msg : string).
Arguments Return {A} a.
Arguments Panic {A} msg.

(** The functions of [regexp], [net/textproto] and [gonum/stat/distuv]
    that the program calls. The sampler may panic, as [distuv]'s does for
    a shape parameter that is not positive; the other functions return. *)
Class Runtime := {
  (** a compiled regular expression *)
  Regexp : Type;
  (** [regexp.Compile]: a compiled expression, or the text of the error *)
  regexp_Compile : string -> Regexp + string;
  (** the method [Match] of a compiled expression: does the byte slice
      contain a match *)
  Regexp_Match : Regexp -> string -> bool;
  (** [textproto.CanonicalMIMEHeaderKey] *)
  CanonicalMIMEHeaderKey : string -> string;
  (** the state of the random source behind [distuv] *)
  Src : Type;
  (** [distuv.Beta{Alpha: a, Beta: b}.Rand()]: the sample or the panic,
      and the random source after the call *)
  Beta_Rand : float -> float -> Src -> Outcome float * Src
}.

(** [regexp.Match(pattern, b)]: compile, then match; Go's pair
    [(matched, err)], with [err = None] for [nil]. *)
Definition regexp_Match `{Runtime} (pattern : string) (b : string)
  : bool * option string :=
  match regexp_Compile pattern with
  | inr err => (false, Some err)
  | inl re => (Regexp_Match re b, None)
  end.

(** [http.Header.Get]: the first value under the canonical form of [key],
    the empty string when there is none. *)
Definition Header_Get `{Runtime} (h : gmap string (list string)) (key : string)
  : string :=
  match h !! CanonicalMIMEHeaderKey key with
  | Some (v :: _) => v
  | _ => ""
  end.

(** [http.Header.Set] and [http.Header.Del]. *)
Definition Header_Set `{Runtime} (h : gmap string (list string))
    (key value : string) : gmap string (list string) :=
  <[CanonicalMIMEHeaderKey key := [value]]> h.

Definition Header_Del `{Runtime} (h : gmap string (list string))
    (key : string) : gmap string (list string) :=
  delete (CanonicalMIMEHeaderKey key) h.

(** ** Effects: the log, the random source, panics *)

Inductive Level := LevelInfo | LevelWarn.

(** An argument of a logging call. *)
Inductive LogArg :=
| LogString (s : string)
| LogMetric (m : MetricInfo)
| LogVersion (v : VersionInfo).

Definition LogEntry : Type := Level * list LogArg.

Record World `{Runtime} := { logged : list LogEntry; rng : Src }.

Definition M `{Runtime} (A : Type) : Type := World -> Outcome A * World.

Definition ret `{Runtime} {A} (a : A) : M A := fun w => (Return a, w).

Definition bind `{Runtime} {A B} (m : M A) (k : A -> M B) : M B :=
  fun w =>
    match m w with
    | (Return a, w') => k a w'
    | (Panic msg, w') => (Panic msg, w')
    end.

Definition panic `{Runtime} {A} (msg : string) : M A := fun w => (Panic msg, w).

Definition log `{Runtime} (l : Level) (args : list LogArg) : M unit :=
  fun w => (Return tt, {| logged := (logged w ++ [(l, args)])%list; rng := rng w |}).

Definition draw `{Runtime} (a b : float) : M float :=
  fun w =>
    let (x, s) := Beta_Rand a b (rng w) in
    (x, {| logged := logged w; rng := s |}).

Declare Scope go_scope.
Delimit Scope go_scope with go.
Notation "'do' x <- m ; k" := (bind m (fun x => k))
  (at level 10, x name, m at level 100, k at level 200) : go_scope.
Local Open Scope go_scope.

(** ** MatchHeaders (main.go, lines 143-150) *)

(** The loop over the entries of [u.Headers]. *)
Fixpoint MatchHeaders_range `{Runtime} (entries : list (string * string))
    (req : Request) : bool :=
  match entries with
  | [] => true
  | (key, val) :: rest =>
      if decide (Header_Get (Header req) key ≠ val) then false
      else MatchHeaders_range rest req
  end.

Definition MatchHeaders `{Runtime} (u : URIConf) (req : Request) : bool :=
  MatchHeaders_range (map_to_list (Headers u)) req.

(** ** GetVersion (main.go, lines 153-181) *)

(** The inner loop over [version.Params]; [found] is the variable of that
    name. The first branch ends in [break], the last one does not. *)
Fixpoint GetVersion_params `{Runtime} (req : Request) (params : list Param)
    (found : bool) : M bool :=
  match params with
  | [] => ret found
  | param :: rest =>
      match Query req !! Name param with
      | Some val =>
          match val !! 0%nat with
          | None => panic "index out of range [0] with length 0"
          | Some val0 =>
              if (0 <? String.length val0)%nat then
                let (matched, err) := regexp_Match (Value param) val0 in
                if bool_decide (err ≠ None) || negb matched then
                  do _ <- log LevelWarn [LogString ("found no match for ... " +:+ Name param)];
                  do _ <- log LevelWarn [LogString (Value param)];
                  do _ <- log LevelWarn [LogString val0];
                  ret false
                else
                  do _ <- log LevelInfo [LogString ("found match for ... " +:+ Name param)];
                  do _ <- log LevelInfo [LogString (Value param)];
                  do _ <- log LevelInfo [LogString val0];
                  GetVersion_params req rest found
              else GetVersion_params req rest false
          end
      | None => GetVersion_params req rest false
      end
  end.

(** The outer loop over [u.Versions]; [None] is the [nil] pointer. *)
Fixpoint GetVersion_versions `{Runtime} (req : Request)
    (versions : list VersionInfo) : M (option VersionInfo) :=
  match versions with
  | [] => ret None
  | version :: rest =>
      do found <- GetVersion_params req (Params version) true;
      if found then ret (Some version)
      else GetVersion_versions req rest
  end.

Definition GetVersion `{Runtime} (u : URIConf) (req : Request)
  : M (option VersionInfo) :=
  GetVersion_versions req (Versions u).

(** ** getValue (main.go, lines 96-110) *)

(** [float64(n)] for an [int64] n of magnitude below 2^63. *)
Definition float64_of_int (n : Z) : float :=
  if (n <? 0)%Z then PrimFloat.opp (PrimFloat.of_uint63 (Uint63.of_Z (- n)%Z))
  else PrimFloat.of_uint63 (Uint63.of_Z n).

(** [time.Second], in nanoseconds. *)
Definition Second : Z := 1000000000.

(** [time.Duration.Seconds]: [sec := d / Second; nsec := d % Second;
    return float64(sec) + float64(nsec)/1e9]. Go's integer division
    truncates. *)
Definition Seconds (d : Z) : float :=
  let sec := Z.quot d Second in
  let nsec := Z.rem d Second in
  (float64_of_int sec + float64_of_int nsec / 1e9)%float.

(** [elapsed] is [time.Now().Sub(start)], the reading of the clock made
    by this call. Every floating-point operation is rounded on its own. *)
Definition getValue `{Runtime} (elapsed : Z) (version : VersionInfo) : M float :=
  if decide (Type_ (Metric version) = "counter") then
    ret (Seconds elapsed * Rate (Metric version))%float
  else if decide (Type_ (Metric version) = "gauge") then
    do _ <- log LevelInfo [LogString "metricinfo..."; LogMetric (Metric version)];
    do beta <- draw ((Seconds elapsed + 1.0) * Alpha (Metric version))%float
                    ((Seconds elapsed + 1.0) * Beta (Metric version))%float;
    ret (Shift (Metric version) + beta * Multiplier (Metric version))%float
  else ret 21.7639%float.

(** ** getHandlerFunc (main.go, lines 44-94) *)

(** A value of [interface{}] in [PrometheusResult]: a [float64], or the
    string [fmt.Sprint] makes of one. *)
Inductive Iface :=
| IfaceFloat (f : float)
| IfaceSprint (f : float).

Record PrometheusResultItem := { Value_ : list Iface }.

Record PrometheusResponseData := {
  ResultType : string;
  Result : list PrometheusResultItem
}.

Record PrometheusResponse := {
  Status : string;
  Data : PrometheusResponseData
}.

(** What a handler writes to its [http.ResponseWriter]: the status of
    [WriteHeader] and the argument of [Write], either a text or the
    [json.Marshal] of a [PrometheusResponse]. *)
Inductive Body :=
| BodyText (s : string)
| BodyJSON (r : PrometheusResponse).

Record Response := { StatusCode : Z; Written : Body }.

Definition StatusOK : Z := 200.
Definition StatusUnauthorized : Z := 401.
Definition StatusInternalServerError : Z := 500.

(** [HandlerFunc]: the request and the clock are its inputs. *)
Definition HandlerFunc `{Runtime} : Type := Request -> Z -> M Response.

(** The closure [f] of [getHandlerFunc]. *)
Definition handler `{Runtime} (conf : URIConf) : HandlerFunc :=
  fun req elapsed =>
    if negb (MatchHeaders conf req) then
      ret {| StatusCode := StatusUnauthorized;
             Written := BodyText "headers are not matching" |}
    else
      do found <- GetVersion conf req;
      match found with
      | Some version =>
          do v <- getValue elapsed version;
          let b := {| Status := "success";
                      Data := {| ResultType := "vector";
                                 Result := [ {| Value_ := [IfaceFloat 1556823494.744%float;
                                                           IfaceSprint v] |} ] |} |} in
          do _ <- log LevelInfo [LogVersion version];
          ret {| StatusCode := StatusOK; Written := BodyJSON b |}
      | None =>
          ret {| StatusCode := StatusInternalServerError;
                 Written := BodyText "500 - cannot find any matching version in request!" |}
      end.

Definition getHandlerFunc `{Runtime} (conf : URIConf) : Outcome HandlerFunc :=
  if decide (Provider conf = "Prometheus") then Return (handler conf)
  else Panic ("unknown provider: " +:+ Provider conf).

(** ** main (main.go, lines 183-224)

    What [main] reads from outside the program: the environment, the
    answer to its HTTP request, the bytes of that answer and what
    [yaml.Unmarshal] makes of them; and what the default mux of
    [net/http] makes of a pattern. An error is the text of the Go
    [error]. *)
Class Host := {
  (** [os.Getenv] *)
  os_Getenv : string -> string;
  (** the body of an [*http.Response], yet to be read *)
  ResponseBody : Type;
  (** [http.Get] *)
  http_Get : string -> ResponseBody + string;
  (** [ioutil.ReadAll] *)
  ioutil_ReadAll : ResponseBody -> string + string;
  (** [yaml.Unmarshal(body, &uriConfs)]: the configurations decoded *)
  yaml_Unmarshal : string -> list URIConf + string;
  (** [http.HandleFunc(pattern, handler)] on a mux that holds the
      patterns [registered]: the message of its panic when it panics (an
      empty or malformed pattern, a pattern registered before), [None]
      when it registers the handler *)
  HandleFunc_panic : list string -> string -> option string
}.

(** An argument of [log.Error] in [main]: the set of the URIs seen, or
    a URI. *)
Inductive ErrorArg :=
| ErrorURISet (uriset : gset string)
| ErrorURI (uri : string).

(** What [main] has done so far: its calls of [log.Error], its calls of
    [http.HandleFunc] and, once it has been called, the address given to
    [http.ListenAndServe]. *)
Record Process `{Runtime} := {
  error_log : list ErrorArg;
  handle_funcs : list (string * HandlerFunc);
  listening : option string
}.

Definition Process_start `{Runtime} : Process :=
  {| error_log := []; handle_funcs := []; listening := None |}.

(** The first loop of [main]: [uriset] is the map of that name, a set of
    strings. *)
Fixpoint main_checkURIs `{Runtime} (uriConfs : list URIConf)
    (uriset : gset string) (p : Process) : Outcome unit * Process :=
  match uriConfs with
  | [] => (Return tt, p)
  | conf :: rest =>
      if decide (URI conf ∈ uriset) then
        (Panic "URIs are not unique",
         {| error_log := (error_log p ++ [ErrorURISet uriset; ErrorURI (URI conf)])%list;
            handle_funcs := handle_funcs p;
            listening := listening p |})
      else main_checkURIs rest ({[URI conf]} ∪ uriset) p
  end.

(** The second loop of [main]: [getHandlerFunc(conf)] is evaluated, then
    [http.HandleFunc] is called with it, on the mux that holds the
    patterns of the calls made so far. Either call may panic. *)
Fixpoint main_register `{Runtime} `{Host} (uriConfs : list URIConf) (p : Process)
  : Outcome unit * Process :=
  match uriConfs with
  | [] => (Return tt, p)
  | conf :: rest =>
      match getHandlerFunc conf with
      | Panic msg => (Panic msg, p)
      | Return f =>
          match HandleFunc_panic (handle_funcs p).*1 (URI conf) with
          | Some msg => (Panic msg, p)
          | None =>
              main_register rest
                {| error_log := error_log p;
                   handle_funcs := (handle_funcs p ++ [(URI conf, f)])%list;
                   listening := listening p |}
          end
      end
  end.

(** [main], up to its call of [http.ListenAndServe]. *)
Definition main `{Runtime} `{Host} : Outcome unit * Process :=
  let configURL := os_Getenv "CONFIG_URL" in
  if (String.length configURL =? 0)%nat then
    (Panic "No config URL supplied", Process_start)
  else
    match http_Get configURL with
    | inr _ =>
        (Panic ("HTTP GET with configured url did not succeed: " +:+ configURL),
         Process_start)
    | inl resp =>
        match ioutil_ReadAll resp with
        | inr err => (Panic err, Process_start)
        | inl body =>
            match yaml_Unmarshal body with
            | inr err => (Panic err, Process_start)
            | inl uriConfs =>
                match main_checkURIs uriConfs ∅ Process_start with
                | (Panic msg, p) => (Panic msg, p)
                | (Return _, p) =>
                    match main_register uriConfs p with
                    | (Panic msg, p') => (Panic msg, p')
                    | (Return _, p') =>
                        (Return tt,
                         {| error_log := error_log p';
                            handle_funcs := handle_funcs p';
                            listening := Some ":8080" |})
                    end
                end
            end
        end
    end.

(** ** A runtime to compute with

    An executable instance of [Runtime], used to evaluate the program on
    concrete requests. Its regular expressions are the fragment of Go's
    syntax built from literal bytes, [.], [|] and the postfix operators
    [*], [+] and [?]; a pattern that uses anything else is refused. *)
Module Standin.

Inductive regex :=
| Never
| Eps
| Lit (c : ascii)
| Dot
| Cat (r1 r2 : regex)
| Alt (r1 r2 : regex)
| Star (r : regex).

(** The parser reads the pattern from left to right: [alts] holds the
    alternatives closed by a [|], [seq] the concatenation being read,
    [atom] its last item, and [quant] how many postfix operators that
    item has received (a [?] after an operator makes it lazy, which does
    not change what matches). *)
Record pstate := {
  alts : option regex;
  seq : regex;
  atom : option regex;
  quant : nat
}.

Definition flush (st : pstate) : regex :=
  match atom st with
  | Some a => Cat (seq st) a
  | None => seq st
  end.

Definition close_alt (st : pstate) : regex :=
  match alts st with
  | Some r => Alt r (flush st)
  | None => flush st
  end.

Definition postfix (op : ascii) (a : regex) : regex :=
  if Ascii.eqb op "*" then Star a
  else if Ascii.eqb op "+" then Cat a (Star a)
  else Alt a Eps.

Definition is_postfix (c : ascii) : bool :=
  Ascii.eqb c "*" || Ascii.eqb c "+" || Ascii.eqb c "?".

(** Letters, digits and the printable bytes that are no operator of the
    syntax stand for themselves. *)
Definition is_special (c : ascii) : bool :=
  existsb (Ascii.eqb c)
    ["\"; "."; "+"; "*"; "?"; "("; ")"; "|"; "["; "]"; "{"; "}"; "^"; "$"]%char.

Definition is_literal (c : ascii) : bool :=
  let n := N_of_ascii c in
  (32 <=? n)%N && (n <? 127)%N && negb (is_special c).

Fixpoint parse (p : string) (st : pstate) : regex + string :=
  match p with
  | EmptyString => inl (close_alt st)
  | String c rest =>
      if Ascii.eqb c "|" then
        parse rest {| alts := Some (close_alt st); seq := Eps;
                      atom := None; quant := 0 |}
      else if is_postfix c then
        match atom st, quant st with
        | None, _ => inr "missing argument to repetition operator"
        | Some a, O =>
            parse rest {| alts := alts st; seq := seq st;
                          atom := Some (postfix c a); quant := 1 |}
        | Some a, S O =>
            if Ascii.eqb c "?" then
              parse rest {| alts := alts st; seq := seq st;
                            atom := Some a; quant := 2 |}
            else inr "invalid nested repetition operator"
        | Some _, _ => inr "invalid nested repetition operator"
        end
      else if Ascii.eqb c "." then
        parse rest {| alts := alts st; seq := flush st;
                      atom := Some Dot; quant := 0 |}
      else if is_literal c then
        parse rest {| alts := alts st; seq := flush st;
                      atom := Some (Lit c); quant := 0 |}
      else inr "pattern outside the supported fragment"
  end.

Definition Compile (pattern : string) : regex + string :=
  parse pattern {| alts := None; seq := Eps; atom := None; quant := 0 |}.

Fixpoint nullable (r : regex) : bool :=
  match r with
  | Never | Lit _ | Dot => false
  | Eps | Star _ => true
  | Cat r1 r2 => nullable r1 && nullable r2
  | Alt r1 r2 => nullable r1 || nullable r2
  end.

(** The derivative of [r] by the byte [c]; [.] matches every byte but the
    line feed. *)
Fixpoint deriv (c : ascii) (r : regex) : regex :=
  match r with
  | Never | Eps => Never
  | Lit a => if Ascii.eqb a c then Eps else Never
  | Dot => if Ascii.eqb c "010" then Never else Eps
  | Cat r1 r2 =>
      if nullable r1 then Alt (Cat (deriv c r1) r2) (deriv c r2)
      else Cat (deriv c r1) r2
  | Alt r1 r2 => Alt (deriv c r1) (deriv c r2)
  | Star r1 => Cat (deriv c r1) (Star r1)
  end.

(** Some prefix of [b] matches [r]. *)
Fixpoint match_prefix (r : regex) (b : string) : bool :=
  nullable r ||
  match b with
  | EmptyString => false
  | String c rest => match_prefix (deriv c r) rest
  end.

(** [b] contains a match of [r]: a match may start anywhere. *)
Fixpoint Match (r : regex) (b : string) : bool :=
  match_prefix r b ||
  match b with
  | EmptyString => false
  | String _ rest => Match r rest
  end.

(** The bytes of a header field name (RFC 7230 tokens). *)
Definition validHeaderFieldByte (c : ascii) : bool :=
  let n := N_of_ascii c in
  ((48 <=? n) && (n <=? 57) || (65 <=? n) && (n <=? 90)
   || (97 <=? n) && (n <=? 122))%N
  || existsb (Ascii.eqb c)
       ["!"; "#"; "$"; "%"; "&"; "'"; "*"; "+"; "-"; "."; "^"; "_"; "`"; "|"; "~"]%char.

(** First letter and every letter after a dash in upper case, the others
    in lower case. *)
Fixpoint canonicalize (upper : bool) (s : string) : string :=
  match s with
  | EmptyString => EmptyString
  | String c rest =>
      let n := N_of_ascii c in
      let c' :=
        if upper && (97 <=? n)%N && (n <=? 122)%N then ascii_of_N (n - 32)
        else if negb upper && (65 <=? n)%N && (n <=? 90)%N then ascii_of_N (n + 32)
        else c in
      String c' (canonicalize (Ascii.eqb c' "-") rest)
  end.

(** A name that holds a byte no header name may hold is left as it is. *)
Definition CanonicalMIMEHeaderKey (s : string) : string :=
  if forallb validHeaderFieldByte (list_ascii_of_string s)
  then canonicalize true s else s.

(** A sampler without randomness. Its state is the list of the shape
    parameters it was called with. It panics, with the message of
    [distuv], when a shape parameter is not positive; otherwise every
    draw is [0.5]. *)
Definition Beta_Rand (a b : float) (s : list (float * float))
  : Outcome float * list (float * float) :=
  if ((a <=? 0) || (b <=? 0))%float
  then (Panic "gamma: alpha <= 0", (s ++ [(a, b)])%list)
  else (Return 0.5%float, (s ++ [(a, b)])%list).

Definition runtime : Runtime :=
  Build_Runtime regex Compile Match CanonicalMIMEHeaderKey
    (list (float * float)) Beta_Rand.

End Standin.

(** * The vocabulary of the statements *)

(** The values of the pairs of [l] whose key is [k], in order. *)
Definition values_of (k : string) (l : list (string * string)) : list string :=
  (filter (λ kv, kv.1 = k) l).*2.

(** The effects of a run that only logs. *)
Definition logs_only `{Runtime} (w w' : World) : Prop :=
  rng w' = rng w ∧ ∃ entries, logged w' = (logged w ++ entries)%list.

(** A constraint is satisfied, in the words of the specification: the
    parameter is present in the query, its first value is not empty and
    the pattern matches in it. *)
Definition satisfied `{Runtime} (req : Request) (c : Param) : Prop :=
  ∃ val val0,
    Query req !! Name c = Some val ∧ val !! 0%nat = Some val0 ∧
    val0 ≠ "" ∧ regexp_Match (Value c) val0 = (true, None).

(** A variant matches: every one of its constraints is satisfied. *)
Definition matches `{Runtime} (req : Request) (version : VersionInfo) : Prop :=
  Forall (satisfied req) (Params version).

(** What one turn of the inner loop decides. *)
Definition satisfiedb `{Runtime} (req : Request) (c : Param) : bool :=
  match Query req !! Name c with
  | Some (val0 :: _) =>
      (0 <? String.length val0)%nat &&
      (let (matched, err) := regexp_Match (Value c) val0 in
       negb (bool_decide (err ≠ None) || negb matched))
  | _ => false
  end.

(** [u] with the list of its variants replaced. *)
Definition with_Versions (u : URIConf) (versions : list VersionInfo) : URIConf :=
  {| Versions := versions; Headers := Headers u; URI := URI u;
     Provider := Provider u |}.

(** [req] with its headers replaced. *)
Definition with_Header (req : Request) (h : gmap string (list string)) : Request :=
  {| Header := h; QueryPairs := QueryPairs req |}.

(** The three answers of the handler, under the names the specification
    gives to its outcomes. *)
Definition AuthorizationFailure : Response :=
  {| StatusCode := StatusUnauthorized;
     Written := BodyText "headers are not matching" |}.

Definition NoVariantMatch : Response :=
  {| StatusCode := StatusInternalServerError;
     Written := BodyText "500 - cannot find any matching version in request!" |}.

Definition NumericValue (v : float) : Response :=
  {| StatusCode := StatusOK;
     Written := BodyJSON
       {| Status := "success";
          Data := {| ResultType := "vector";
                     Result := [ {| Value_ := [IfaceFloat 1556823494.744%float;
                                               IfaceSprint v] |} ] |} |} |}.

Definition log_version `{Runtime} (version : VersionInfo) (w : World) : World :=
  {| logged := (logged w ++ [(LevelInfo, [LogVersion version])])%list; rng := rng w |}.

(** The first value of the query parameter [k], if it has one. *)
Definition first_value (req : Request) (k : string) : option string :=
  head (values_of k (QueryPairs req)).

(** [req] with the pairs of its query replaced. *)
Definition with_QueryPairs (req : Request) (pairs : list (string * string)) : Request :=
  {| Header := Header req; QueryPairs := pairs |}.

(** [p] after more calls of [log.Error]. *)
Definition with_errors `{Runtime} (p : Process) (args : list ErrorArg) : Process :=
  {| error_log := (error_log p ++ args)%list;
     handle_funcs := handle_funcs p;
     listening := listening p |}.

(** [p] after more calls of [http.HandleFunc]. *)
Definition with_handlers `{Runtime} (p : Process)
    (hs : list (string * HandlerFunc)) : Process :=
  {| error_log := error_log p;
     handle_funcs := (handle_funcs p ++ hs)%list;
     listening := listening p |}.

(** The call of [http.HandleFunc] that [main] makes for [conf]. *)
Definition registration `{Runtime} (conf : URIConf) : string * HandlerFunc :=
  (URI conf, handler conf).

(** What the handler makes of what [getValue] comes to for the variant
    resolved: the answer with the number, after logging the variant, or
    the panic. *)
Definition handler_after_getValue `{Runtime} (version : VersionInfo)
    (r : Outcome float * World) : Outcome Response * World :=
  match r with
  | (Return x, w') => (Return (NumericValue x), log_version version w')
  | (Panic msg, w') => (Panic msg, w')
  end.

(** The world after the gauge branch of [getValue] has logged the metric
    and the sampler has left the random source [s]. *)
Definition gauge_world `{Runtime} (version : VersionInfo) (w : World) (s : Src) : World :=
  {| logged := (logged w ++
                [(LevelInfo, [LogString "metricinfo..."; LogMetric (Metric version)])])%list;
     rng := s |}.

(** The configurations that the second loop of [main] gets through, on a
    mux that holds the patterns [registered]: each has the provider
    [Prometheus] and a URI that [http.HandleFunc] takes after those
    before it. *)
Fixpoint accepted_in_order `{Host} (registered : list string)
    (uriConfs : list URIConf) : Prop :=
  match uriConfs with
  | [] => True
  | conf :: rest =>
      Provider conf = "Prometheus" ∧
      HandleFunc_panic registered (URI conf) = None ∧
      accepted_in_order (registered ++ [URI conf])%list rest
  end.

(** ** The scenario of the specification

    An endpoint with two variants: [V1] asks for the query parameter
    [version] to match [canary], [V2] asks for nothing. [Vbad] asks for a
    pattern that does not compile, [Vodd] has a metric of no known type. *)
Module Scenario.

Definition V1 : VersionInfo :=
  {| Params := [ {| Name := "version"; Value := "canary" |} ];
     Metric := {| Type_ := "counter"; Rate := 2; Shift := 0; Multiplier := 0;
                  Alpha := 0; Beta := 0 |} |}.

Definition V2 : VersionInfo :=
  {| Params := [];
     Metric := {| Type_ := "gauge"; Rate := 0; Shift := 0; Multiplier := 1;
                  Alpha := 1; Beta := 1 |} |}.

Definition conf : URIConf :=
  {| Versions := [V1; V2];
     Headers := {[ "x-api-key" := "secret" ]};
     URI := "/api/v1/query";
     Provider := "Prometheus" |}.

Definition request (key : list string) (query : list (string * string)) : Request :=
  {| Header := {[ "X-Api-Key" := key ]}; QueryPairs := query |}.

Definition w0 : @World Standin.runtime := @Build_World Standin.runtime [] [].

Definition Vbad : VersionInfo :=
  {| Params := [ {| Name := "version"; Value := "*" |} ];
     Metric := Metric V1 |}.

Definition Vodd : VersionInfo :=
  {| Params := [];
     Metric := {| Type_ := "histogram"; Rate := 1; Shift := 2; Multiplier := 3;
                  Alpha := 4; Beta := 5 |} |}.

Definition canary : Request := request ["secret"] [("version", "canary")].
Definition stable : Request := request ["secret"] [("version", "stable")].
Definition plain : Request := request ["secret"] [].
Definition intruder : Request := request ["Secret"] [("version", "canary")].

End Scenario.

(** ** A host to compute with

    The environment names one URL; the document behind it decodes to the
    configurations given. Every other URL cannot be reached. The mux
    refuses the empty pattern and a pattern it holds. *)
Module StandinHost.

Definition configURL : string := "http://config.test/metrics.yaml".

Definition host (uriConfs : list URIConf) : Host :=
  {| os_Getenv := λ name, if decide (name = "CONFIG_URL") then configURL else "";
     ResponseBody := string;
     http_Get := λ url, if decide (url = configURL) then inl "versions: ..."
                        else inr "no such host";
     ioutil_ReadAll := λ body, inl body;
     yaml_Unmarshal := λ _, inl uriConfs;
     HandleFunc_panic := λ registered pattern,
       if decide (pattern = "") then Some "http: invalid pattern"
       else if decide (pattern ∈ registered)
            then Some ("http: multiple registrations for " +:+ pattern)
            else None |}.

(** A second endpoint, and two that cannot stand beside [Scenario.conf]:
    one with its URI, one with a provider that is not known. *)
Definition other : URIConf :=
  {| Versions := [Scenario.V2]; Headers := ∅; URI := "/api/v1/other";
     Provider := "Prometheus" |}.

Definition twin : URIConf :=
  {| Versions := []; Headers := ∅; URI := "/api/v1/query";
     Provider := "Datadog" |}.

Definition stranger : URIConf :=
  {| Versions := []; Headers := ∅; URI := "/api/v1/stranger";
     Provider := "Datadog" |}.

(** One with no URI. *)
Definition nowhere : URIConf :=
  {| Versions := [Scenario.V2]; Headers := ∅; URI := "";
     Provider := "Prometheus" |}.

End StandinHost.

(** * Properties *)

(** ** binary64 arithmetic

    Facts about [float] that the value generator needs, proved on the
    specification of the operations. *)
Module F64.



Lemma pow2_xO p : 2 ^ Zpos p~0 = 2 ^ Zpos p * 2 ^ Zpos p.
Proof.
  replace (Zpos p~0) with (Zpos p + Zpos p) by lia. apply Z.pow_add_r; lia.
Qed.

Lemma pow2_xI p : 2 ^ Zpos p~1 = 2 * (2 ^ Zpos p * 2 ^ Zpos p).
Proof.
  replace (Zpos p~1) with (Z.succ (Zpos p + Zpos p)) by lia.
  rewrite Z.pow_succ_r by lia. f_equal. apply Z.pow_add_r; lia.
Qed.

Lemma pow2_pos n : 0 <= n -> 0 < 2 ^ n.
Proof. intros Hn. apply Z.pow_pos_nonneg; lia. Qed.

Lemma shr_1_m mrs : 0 <= shr_m mrs -> shr_m (shr_1 mrs) = shr_m mrs / 2.
Proof.
  destruct mrs as [m r s]. cbn [shr_m]. intros Hm. rewrite <- Z.div2_div.
  destruct m as [|[p|p|]|p]; try reflexivity. lia.
Qed.

Lemma iter_pos_shr_m p :
  forall mrs, 0 <= shr_m mrs ->
    shr_m (SpecFloat.iter_pos shr_1 p mrs) = shr_m mrs / 2 ^ Zpos p.
Proof.
  induction p as [p IH|p IH|]; intros mrs Hm; cbn [SpecFloat.iter_pos].
  - assert (0 <= shr_m (shr_1 mrs)) as H1.
    { rewrite shr_1_m by done. apply Z.div_pos; lia. }
    assert (0 <= shr_m (SpecFloat.iter_pos shr_1 p (shr_1 mrs))) as H2.
    { rewrite IH by done. apply Z.div_pos; [done|]. apply Z.pow_pos_nonneg; lia. }
    rewrite IH by done. rewrite IH by done. rewrite shr_1_m by done.
    rewrite !Z.div_div by (try apply pow2_pos; lia).
    by rewrite pow2_xI.
  - assert (0 <= shr_m (SpecFloat.iter_pos shr_1 p mrs)) as H2.
    { rewrite IH by done. apply Z.div_pos; [done|]. apply Z.pow_pos_nonneg; lia. }
    rewrite IH by done. rewrite IH by done.
    rewrite !Z.div_div by (try apply pow2_pos; lia).
    by rewrite pow2_xO.
  - by rewrite shr_1_m.
Qed.



Lemma round_nearest_even_ge m l : m <= round_nearest_even m l.
Proof. destruct l as [|[]]; cbn; try lia. destruct (Z.even m); lia. Qed.






(** Zero, a positive number or the positive infinity. *)
Definition sf_nonneg (x : spec_float) : Prop :=
  match x with
  | S754_zero _ | S754_infinity false | S754_finite false _ _ => True
  | _ => False
  end.

(** A positive number of the format, or the positive infinity. *)
Definition sf_pos (x : spec_float) : Prop :=
  x = S754_infinity false \/
  exists m e, x = S754_finite false m e /\ emin <= e.





(** *** The primitive floats *)

Lemma Prim2SF_zero : Prim2SF 0 = S754_zero false.
Proof. reflexivity. Qed.


Lemma valid_exponent m e s :
  valid_binary (S754_finite s m e) = true -> emin <= e.
Proof.
  cbn. unfold bounded, canonical_mantissa, fexp.
  intros [Hc _]%andb_true_iff. apply Z.eqb_eq in Hc. lia.
Qed.

Lemma leb_zero_nonneg x : (0 <=? x)%float = true -> sf_nonneg (Prim2SF x).
Proof.
  rewrite FloatAxioms.leb_spec, Prim2SF_zero. unfold SFleb, SFcompare.
  by destruct (Prim2SF x) as [s|[]| |[] m e].
Qed.

Lemma ltb_zero_pos x : (0 <? x)%float = true -> sf_pos (Prim2SF x).
Proof.
  rewrite FloatAxioms.ltb_spec, Prim2SF_zero. unfold SFltb, SFcompare.
  pose proof (Prim2SF_valid x) as Hv.
  destruct (Prim2SF x) as [s|[]| |[] m e]; try done; intros _.
  - by left.
  - right. exists m, e. split; [done|]. by eapply valid_exponent.
Qed.






(** *** Signs *)

Lemma shr_fexp_nonneg m e l : 0 <= m -> 0 <= shr_m (shr_fexp prec emax m e l).1.
Proof.
  intros Hm. unfold shr_fexp, shr.
  assert (shr_m (shr_record_of_loc m l) = m) as Hrec.
  { by destruct l as [|[]]. }
  destruct (fexp prec emax (Zdigits2 m + e) - e) as [|p|p];
    cbn [fst]; rewrite ?Hrec; try done.
  rewrite iter_pos_shr_m by (rewrite Hrec; lia). rewrite Hrec.
  apply Z.div_pos; [done|by apply pow2_pos].
Qed.

(** Rounding a mantissa that is not negative gives a zero, a number or an
    infinity of the sign asked for. *)
Lemma binary_round_aux_nonneg m e l :
  0 <= m -> sf_nonneg (binary_round_aux prec emax false m e l).
Proof.
  intros Hm. unfold binary_round_aux.
  pose proof (shr_fexp_nonneg m e l Hm) as H1.
  destruct (shr_fexp prec emax m e l) as [mrs1 e1]. cbn [fst] in H1.
  pose proof (round_nearest_even_ge (shr_m mrs1) (loc_of_shr_record mrs1)) as Hge.
  set (m1 := round_nearest_even (shr_m mrs1) (loc_of_shr_record mrs1)) in *.
  pose proof (shr_fexp_nonneg m1 e1 loc_Exact ltac:(lia)) as H2.
  destruct (shr_fexp prec emax m1 e1 loc_Exact) as [mrs2 e2]. cbn [fst] in H2.
  destruct (shr_m mrs2) as [|q|q]; try done. by destruct (e2 <=? emax - prec)%Z.
Qed.

Lemma binary_normalize_nonneg m e :
  0 <= m -> sf_nonneg (binary_normalize prec emax m e false).
Proof.
  intros Hm. destruct m as [|p|p]; [done| |lia]. cbn [binary_normalize].
  unfold binary_round. destruct (shl_align p e _) as [mz ez].
  by apply binary_round_aux_nonneg.
Qed.

Lemma SF64add_nonneg x y : sf_nonneg x -> sf_nonneg y -> sf_nonneg (SF64add x y).
Proof.
  destruct x as [[]|[]| |[] mx ex]; try done;
    destruct y as [[]|[]| |[] my ey]; try done; intros _ _.
  unfold SF64add, SFadd. cbn [cond_Zopp]. apply binary_normalize_nonneg. lia.
Qed.

Lemma SF64div_nonneg x my ey :
  sf_nonneg x -> sf_nonneg (SF64div x (S754_finite false my ey)).
Proof.
  destruct x as [[]|[]| |[] mx ex]; try done; intros _.
  unfold SF64div, SFdiv. cbn [xorb].
  destruct (SFdiv_core_binary prec emax (Zpos mx) ex (Zpos my) ey) as [[mz ez] lz] eqn:Hcore.
  apply binary_round_aux_nonneg.
  unfold SFdiv_core_binary in Hcore.
  set (s := ex - ey - _) in Hcore.
  set (m' := match s with Z.pos _ => Z.shiftl (Zpos mx) s | 0 => Zpos mx | Z.neg _ => 0 end) in Hcore.
  assert (0 <= m') as Hm'.
  { subst m'. destruct s; [lia| |lia]. apply Z.shiftl_nonneg. lia. }
  pose proof (Z_div_mod m' (Zpos my) ltac:(lia)) as Hdm.
  destruct (Z.div_eucl m' (Zpos my)) as [q r]. injection Hcore as <- _ _.
  destruct Hdm as [Heq Hr]. nia.
Qed.

Lemma nonneg_leb_zero x : sf_nonneg (Prim2SF x) -> (0 <=? x)%float = true.
Proof.
  rewrite FloatAxioms.leb_spec, Prim2SF_zero.
  by destruct (Prim2SF x) as [[]|[]| |[] m e].
Qed.

Lemma of_uint63_nonneg n : sf_nonneg (Prim2SF (of_uint63 n)).
Proof.
  rewrite of_uint63_spec. apply binary_normalize_nonneg.
  apply Uint63.to_Z_bounded.
Qed.
End F64.

(** ** The query values *)

Lemma foldl_Values_add_lookup l m k :
  foldl Values_add m l !! k =
    match values_of k l with
    | [] => m !! k
    | vs => Some (default [] (m !! k) ++ vs)%list
    end.
Proof.
  revert m. induction l as [|[k' v'] l IH]; intros m; [done|].
  cbn [foldl]. rewrite IH. unfold values_of, Values_add. cbn [fst snd].
  rewrite filter_cons. cbn [fst]. destruct (decide (k' = k)) as [->|Hne].
  - rewrite lookup_insert_eq. cbn.
    destruct ((filter (λ kv : string * string, kv.1 = k) l).*2) as [|x xs].
    + f_equal.
    + cbn. by rewrite <- app_assoc.
  - by rewrite lookup_insert_ne.
Qed.

Lemma Query_lookup req k :
  Query req !! k =
    match values_of k (QueryPairs req) with
    | [] => None
    | vs => Some vs
    end.
Proof.
  unfold Query. rewrite foldl_Values_add_lookup, lookup_empty.
  by destruct (values_of k (QueryPairs req)).
Qed.

(** A key of [req.URL.Query()] has at least one value, so [val[0]] is
    always in range. *)
Lemma Query_first req k val :
  Query req !! k = Some val → ∃ v0 rest, val = v0 :: rest.
Proof.
  rewrite Query_lookup. destruct (values_of k (QueryPairs req)); [done|].
  intros [= <-]. eauto.
Qed.

(** ** The resolver *)

Lemma logs_only_refl `{Runtime} w : logs_only w w.
Proof. split; [done|]. exists []. by rewrite app_nil_r. Qed.

Lemma logs_only_trans `{Runtime} w1 w2 w3 :
  logs_only w1 w2 → logs_only w2 w3 → logs_only w1 w3.
Proof.
  intros [Hr1 [e1 He1]] [Hr2 [e2 He2]]. split; [congruence|].
  exists (e1 ++ e2)%list. by rewrite He2, He1, app_assoc.
Qed.

Lemma log_run `{Runtime} l args w :
  ∃ w', log l args w = (Return tt, w') ∧ logs_only w w'.
Proof. eexists. split; [reflexivity|]. split; [done|]. by eexists. Qed.

Lemma length_pos_nonempty (s : string) :
  (0 <? String.length s)%nat = true ↔ s ≠ "".
Proof.
  destruct s; cbn; split; done.
Qed.

Lemma satisfiedb_spec `{Runtime} req c :
  satisfiedb req c = true ↔ satisfied req c.
Proof.
  unfold satisfiedb, satisfied. split.
  - destruct (Query req !! Name c) as [[|val0 rest]|] eqn:Hq; try done.
    destruct (regexp_Match (Value c) val0) as [matched err] eqn:Hre.
    intros [Hlen Hm]%andb_true_iff. apply length_pos_nonempty in Hlen.
    apply negb_true_iff, orb_false_iff in Hm as [Herr Hmat].
    apply bool_decide_eq_false in Herr. apply negb_false_iff in Hmat.
    exists (val0 :: rest), val0. repeat split; try done.
    destruct err; [by destruct Herr|]. by subst.
  - intros (val & val0 & -> & Hv & Hne & Hm).
    destruct val as [|v rest]; [done|]. injection Hv as ->.
    apply andb_true_iff. split; [by apply length_pos_nonempty|].
    by rewrite Hm.
Qed.

Lemma satisfiedb_matches `{Runtime} req version :
  forallb (satisfiedb req) (Params version) = true ↔ matches req version.
Proof.
  unfold matches. rewrite forallb_forall, Forall_forall.
  split; intros Hall c Hc.
  - apply satisfiedb_spec, Hall. by apply list_elem_of_In.
  - apply satisfiedb_spec, Hall. by apply list_elem_of_In.
Qed.

(** The inner loop returns, without a panic, whether [found] held at its
    start and every constraint is satisfied; it only logs. *)
Lemma GetVersion_params_run `{Runtime} req params :
  ∀ found w, ∃ w',
    GetVersion_params req params found w =
      (Return (found && forallb (satisfiedb req) params), w') ∧
    logs_only w w'.
Proof.
  induction params as [|c rest IH]; intros found w.
  - exists w. cbn. rewrite andb_true_r. split; [done|apply logs_only_refl].
  - cbn [GetVersion_params forallb]. unfold satisfiedb at 1.
    destruct (Query req !! Name c) as [val|] eqn:Hq.
    + destruct (Query_first _ _ _ Hq) as (val0 & tl & ->). cbn [lookup list_lookup].
      destruct (0 <? String.length val0)%nat eqn:Hlen.
      * destruct (regexp_Match (Value c) val0) as [matched err].
        destruct (bool_decide (err ≠ None) || negb matched) eqn:Hbad.
        -- cbn. rewrite andb_false_r. eexists. split; [reflexivity|].
           split; [done|]. cbn. eexists. by rewrite <- !app_assoc.
        -- unfold bind at 1. destruct (log_run LevelInfo
             [LogString ("found match for ... " +:+ Name c)] w) as (w1 & -> & H1).
           unfold bind at 1. destruct (log_run LevelInfo [LogString (Value c)] w1)
             as (w2 & -> & H2).
           unfold bind at 1. destruct (log_run LevelInfo [LogString val0] w2)
             as (w3 & -> & H3).
           destruct (IH found w3) as (w' & -> & H4). exists w'. cbn.
           split; [done|]. eauto using logs_only_trans.
      * destruct (IH false w) as (w' & -> & H'). exists w'. by rewrite andb_false_r.
    + destruct (IH false w) as (w' & -> & H'). exists w'. by rewrite andb_false_r.
Qed.

#[local] Instance matches_dec `{Runtime} req version :
  Decision (matches req version).
Proof.
  destruct (forallb (satisfiedb req) (Params version)) eqn:Hb.
  - left. by apply satisfiedb_matches.
  - right. intros Hm%satisfiedb_matches. congruence.
Qed.

(** One turn of the outer loop on a variant that does not match goes on
    with the variants that follow; on one that matches it returns. *)
Lemma GetVersion_versions_skip `{Runtime} req version rest w :
  ¬ matches req version →
  ∃ w1, logs_only w w1 ∧
    GetVersion_versions req (version :: rest) w = GetVersion_versions req rest w1 ∧
    ∀ rest', GetVersion_versions req (version :: rest') w =
             GetVersion_versions req rest' w1.
Proof.
  intros Hno. destruct (GetVersion_params_run req (Params version) true w)
    as (w1 & Hrun & Hlog).
  assert (forallb (satisfiedb req) (Params version) = false) as Hb.
  { apply not_true_is_false. by rewrite satisfiedb_matches. }
  rewrite Hb in Hrun. exists w1. split; [done|].
  split; [|intros rest']; cbn [GetVersion_versions]; unfold bind; by rewrite Hrun.
Qed.

Lemma GetVersion_versions_hit `{Runtime} req version w :
  matches req version →
  ∃ w1, logs_only w w1 ∧
    ∀ rest, GetVersion_versions req (version :: rest) w = (Return (Some version), w1).
Proof.
  intros Hyes%satisfiedb_matches.
  destruct (GetVersion_params_run req (Params version) true w)
    as (w1 & Hrun & Hlog).
  rewrite Hyes in Hrun. exists w1. split; [done|]. intros rest.
  cbn [GetVersion_versions]. unfold bind. by rewrite Hrun.
Qed.

(** Past variants that do not match, the first one that does is returned,
    whatever follows it. *)
Lemma GetVersion_versions_prefix `{Runtime} req pre version :
  Forall (λ v, ¬ matches req v) pre → matches req version →
  ∀ w, ∃ w', logs_only w w' ∧
    ∀ post, GetVersion_versions req (pre ++ version :: post) w =
            (Return (Some version), w').
Proof.
  intros Hpre Hhit. induction Hpre as [|v pre Hv _ IH]; intros w.
  - by apply GetVersion_versions_hit.
  - destruct (GetVersion_versions_skip req v pre w Hv) as (w1 & Hlog1 & _ & Hskip).
    destruct (IH w1) as (w' & Hlog' & Hrun). exists w'.
    split; [by eapply logs_only_trans|]. intros post.
    rewrite <- app_comm_cons, Hskip. apply Hrun.
Qed.

(** When no variant matches the loop ends with [nil]; it never panics. *)
Lemma GetVersion_versions_none `{Runtime} req versions :
  Forall (λ v, ¬ matches req v) versions →
  ∀ w, ∃ w', logs_only w w' ∧ GetVersion_versions req versions w = (Return None, w').
Proof.
  induction 1 as [|v rest Hv _ IH]; intros w.
  - exists w. split; [apply logs_only_refl|done].
  - destruct (GetVersion_versions_skip req v rest w Hv) as (w1 & Hlog1 & Hskip & _).
    destruct (IH w1) as (w' & Hlog' & Hrun). exists w'.
    split; [by eapply logs_only_trans|]. by rewrite Hskip.
Qed.

(** The least index of a matching variant. *)
Lemma first_matching_index `{Runtime} req versions :
  ∀ j vj, versions !! j = Some vj → matches req vj →
  ∃ i vi, (i ≤ j)%nat ∧ versions !! i = Some vi ∧ matches req vi ∧
    Forall (λ v, ¬ matches req v) (take i versions).
Proof.
  induction versions as [|v rest IH]; intros j vj Hj Hm; [done|].
  destruct (matches_dec req v) as [Hv|Hv].
  - exists 0%nat, v. split_and!; [lia|done|done|constructor].
  - destruct j as [|j]; [cbn in Hj; by simplify_eq|].
    destruct (IH j vj Hj Hm) as (i & vi & Hle & Hi & Hmi & Hbefore).
    exists (S i), vi. split_and!; [lia|done|done|]. cbn. by constructor.
Qed.

(** The resolver always returns: either a variant of the list, when one
    matches, or [nil]. *)
Lemma GetVersion_returns `{Runtime} u req w :
  ∃ r w', GetVersion u req w = (Return r, w') ∧ logs_only w w' ∧
    match r with
    | Some v => v ∈ Versions u ∧ matches req v
    | None => Forall (λ v, ¬ matches req v) (Versions u)
    end.
Proof.
  unfold GetVersion.
  destruct (decide (Exists (matches req) (Versions u))) as [Hex|Hno].
  - apply Exists_exists in Hex as (vj & [j Hj]%list_elem_of_lookup & Hm).
    destruct (first_matching_index req _ j vj Hj Hm) as (i & vi & _ & Hi & Hmi & Hpre).
    destruct (GetVersion_versions_prefix req _ vi Hpre Hmi w) as (w' & Hlog & Hrun).
    exists (Some vi), w'. rewrite <- (take_drop_middle _ i vi Hi) at 1.
    rewrite Hrun. split_and!; try done. by eapply list_elem_of_lookup_2.
  - apply not_Exists_Forall in Hno; [|apply _].
    destruct (GetVersion_versions_none req _ Hno w) as (w' & Hlog & Hrun).
    by exists None, w'.
Qed.

(** C1. First match wins. Whenever a variant of the list matches the
    request (so in particular when two or more do), [GetVersion] returns
    the matching variant that comes first in the list: it sits at or
    before the given one and no variant before it matches. It returns it
    at once: the run (result, log and random source) is the same whatever
    variants follow it in the list. *)
Theorem GetVersion_first_match_wins `{Runtime} (u : URIConf) (req : Request)
    (w : World) (j : nat) (vj : VersionInfo) :
  Versions u !! j = Some vj → matches req vj →
  ∃ i vi w',
    (i ≤ j)%nat ∧ Versions u !! i = Some vi ∧ matches req vi ∧
    (∀ k vk, (k < i)%nat → Versions u !! k = Some vk → ¬ matches req vk) ∧
    GetVersion u req w = (Return (Some vi), w') ∧
    ∀ later,
      GetVersion (with_Versions u (take (S i) (Versions u) ++ later)) req w =
        (Return (Some vi), w').
Proof.
  intros Hj Hm.
  destruct (first_matching_index req _ j vj Hj Hm) as (i & vi & Hle & Hi & Hmi & Hpre).
  destruct (GetVersion_versions_prefix req _ vi Hpre Hmi w) as (w' & Hlog & Hrun).
  exists i, vi, w'. split_and!; try done.
  - intros k vk Hk Hvk. rewrite Forall_lookup in Hpre. apply (Hpre k).
    by rewrite lookup_take_lt.
  - unfold GetVersion. rewrite <- (take_drop_middle _ i vi Hi) at 1. apply Hrun.
  - intros later. unfold GetVersion, with_Versions. cbn [Versions].
    rewrite (take_S_r _ i vi Hi), <- app_assoc. apply Hrun.
Qed.

(** C2. A variant matches exactly when every one of its constraints is
    satisfied: the inner loop of [GetVersion] ends, without a panic, with
    [found] true if and only if each constraint names a parameter that is
    present in the query with a non-empty first value in which the pattern
    matches ([satisfied]). So an empty list of constraints matches every
    request, and one constraint whose parameter is absent, or whose first
    value is empty, or whose pattern does not match that value, makes
    [found] false. *)
Theorem variant_matches_iff_all_satisfied `{Runtime} (req : Request)
    (version : VersionInfo) (w : World) :
  ∃ found w',
    GetVersion_params req (Params version) true w = (Return found, w') ∧
    (found = true ↔
       ∀ c, c ∈ Params version →
         ∃ val val0, Query req !! Name c = Some val ∧ val !! 0%nat = Some val0 ∧
           val0 ≠ "" ∧ regexp_Match (Value c) val0 = (true, None)) ∧
    (Params version = [] → found = true) ∧
    (∀ c, c ∈ Params version → Query req !! Name c = None → found = false) ∧
    (∀ c rest, c ∈ Params version →
       Query req !! Name c = Some ("" :: rest) → found = false) ∧
    (∀ c val0 rest, c ∈ Params version →
       Query req !! Name c = Some (val0 :: rest) →
       regexp_Match (Value c) val0 ≠ (true, None) → found = false).
Proof.
  destruct (GetVersion_params_run req (Params version) true w) as (w' & Hrun & _).
  cbn [andb] in Hrun. eexists _, w'. split; [exact Hrun|].
  assert (∀ c, c ∈ Params version → ¬ satisfied req c →
            forallb (satisfiedb req) (Params version) = false) as Hbad.
  { intros c Hc Hno. apply not_true_is_false. rewrite satisfiedb_matches.
    intros Hall. by eapply Hno, Forall_forall. }
  split_and!.
  - rewrite satisfiedb_matches. unfold matches. by rewrite Forall_forall.
  - by intros ->.
  - intros c Hc Hq. apply (Hbad c Hc). intros (val & val0 & Hq' & _). congruence.
  - intros c rest Hc Hq. apply (Hbad c Hc).
    intros (val & val0 & Hq' & Hv & Hne & _).
    rewrite Hq in Hq'. by simplify_eq/=.
  - intros c val0 rest Hc Hq Hre. apply (Hbad c Hc).
    intros (val & val0' & Hq' & Hv & _ & Hm).
    rewrite Hq in Hq'. by simplify_eq/=.
Qed.

(** ** The header gate *)

Lemma MatchHeaders_range_true `{Runtime} entries req :
  MatchHeaders_range entries req = true ↔
  ∀ key val, (key, val) ∈ entries → Header_Get (Header req) key = val.
Proof.
  induction entries as [|[key val] rest IH]; cbn [MatchHeaders_range].
  - split; [|done]. intros _ key val Hin. by apply elem_of_nil in Hin.
  - destruct (decide (Header_Get (Header req) key ≠ val)) as [Hne|Heq].
    + split; [done|]. intros Hall. destruct Hne. apply Hall. by left.
    + apply dec_stable in Heq. rewrite IH. split.
      * intros Hall key' val' [[= -> ->]|Hin]%elem_of_cons; [done|by apply Hall].
      * intros Hall key' val' Hin. apply Hall. by right.
Qed.

(** Go ranges over a map in an order of its own choosing; the result of
    the loop does not depend on it. *)
Lemma MatchHeaders_range_Permutation `{Runtime} entries entries' req :
  entries ≡ₚ entries' →
  MatchHeaders_range entries req = MatchHeaders_range entries' req.
Proof.
  intros Hp. apply eq_true_iff_eq. rewrite !MatchHeaders_range_true.
  by setoid_rewrite Hp.
Qed.

Lemma MatchHeaders_true `{Runtime} u req :
  MatchHeaders u req = true ↔
  ∀ key val, Headers u !! key = Some val → Header_Get (Header req) key = val.
Proof.
  unfold MatchHeaders. rewrite MatchHeaders_range_true.
  by setoid_rewrite elem_of_map_to_list.
Qed.

(** The gate sees a request only through [Header.Get]. *)
Lemma MatchHeaders_ext `{Runtime} u req req' :
  (∀ key, Header_Get (Header req) key = Header_Get (Header req') key) →
  MatchHeaders u req = MatchHeaders u req'.
Proof.
  intros Hget. apply eq_true_iff_eq. rewrite !MatchHeaders_true.
  by setoid_rewrite Hget.
Qed.

Lemma Header_Get_Set `{Runtime} h key value :
  Header_Get (Header_Set h key value) key = value.
Proof. unfold Header_Get, Header_Set. by rewrite lookup_insert_eq. Qed.

Lemma Header_Get_absent `{Runtime} h key :
  h !! CanonicalMIMEHeaderKey key = None → Header_Get h key = "".
Proof. unfold Header_Get. by intros ->. Qed.

Lemma Header_Get_Del_Set_empty `{Runtime} h key key' :
  Header_Get (Header_Del h key) key' = Header_Get (Header_Set h key "") key'.
Proof.
  unfold Header_Get, Header_Del, Header_Set.
  destruct (decide (CanonicalMIMEHeaderKey key = CanonicalMIMEHeaderKey key')) as [->|Hne].
  - by rewrite lookup_delete_eq, lookup_insert_eq.
  - by rewrite lookup_delete_ne, lookup_insert_ne.
Qed.

(** A required header set to another value than the expected one. *)
Lemma MatchHeaders_Set_other `{Runtime} u req key val other :
  Headers u !! key = Some val → other ≠ val →
  MatchHeaders u (with_Header req (Header_Set (Header req) key other)) = false.
Proof.
  intros Hkey Hne. apply not_true_is_false.
  rewrite MatchHeaders_true. intros Hall. specialize (Hall key val Hkey).
  cbn [with_Header Header] in Hall. by rewrite Header_Get_Set in Hall.
Qed.

(** C3. [MatchHeaders] is true exactly when, for every entry of the header
    map of the configuration, the value the request gives for that name
    ([Header.Get]) is the expected value, compared as strings. So an empty
    header map authorizes every request, and setting one required header of
    the request to any other string makes it false. *)
Theorem MatchHeaders_iff_all_headers_equal `{Runtime} (u : URIConf) (req : Request) :
  (MatchHeaders u req = true ↔
     ∀ key val, Headers u !! key = Some val → Header_Get (Header req) key = val) ∧
  (Headers u = ∅ → MatchHeaders u req = true) ∧
  (∀ key val other, Headers u !! key = Some val → other ≠ val →
     MatchHeaders u (with_Header req (Header_Set (Header req) key other)) = false).
Proof.
  split_and!.
  - apply MatchHeaders_true.
  - intros Hempty. apply MatchHeaders_true. intros key val. by rewrite Hempty.
  - intros key val other. apply MatchHeaders_Set_other.
Qed.

(** C9. The gate does not tell a header that the request lacks from one it
    carries with the empty string as value: removing a header and setting
    it to the empty string give the same answer. So a request that lacks a
    required header, and meets the other requirements, passes exactly when
    the expected value of that header is the empty string; when the
    expected value is not empty, a request without the header and a request
    with another value for it are both turned down. *)
Theorem MatchHeaders_absent_as_empty `{Runtime} (u : URIConf) (req : Request) :
  (∀ key,
     MatchHeaders u (with_Header req (Header_Del (Header req) key)) =
     MatchHeaders u (with_Header req (Header_Set (Header req) key ""))) ∧
  (∀ key val, Headers u !! key = Some val →
     Header req !! CanonicalMIMEHeaderKey key = None →
     (∀ key' val', key' ≠ key → Headers u !! key' = Some val' →
        Header_Get (Header req) key' = val') →
     (MatchHeaders u req = true ↔ val = "")) ∧
  (∀ key val, Headers u !! key = Some val → val ≠ "" →
     (Header req !! CanonicalMIMEHeaderKey key = None →
        MatchHeaders u req = false) ∧
     (∀ other, other ≠ val →
        MatchHeaders u (with_Header req (Header_Set (Header req) key other)) = false)).
Proof.
  split_and!.
  - intros key. apply MatchHeaders_ext. intros key'. cbn [with_Header Header].
    apply Header_Get_Del_Set_empty.
  - intros key val Hkey Habsent Hothers. rewrite MatchHeaders_true. split.
    + intros Hall. rewrite <- (Hall key val Hkey). by apply Header_Get_absent.
    + intros -> key' val' Hkey'. destruct (decide (key' = key)) as [->|Hne].
      * rewrite Hkey in Hkey'. injection Hkey' as <-. by apply Header_Get_absent.
      * by apply Hothers.
  - intros key val Hkey Hval. split.
    + intros Habsent. apply not_true_is_false. rewrite MatchHeaders_true.
      intros Hall. apply Hval. rewrite <- (Hall key val Hkey).
      by apply Header_Get_absent.
    + intros other Hne. by eapply MatchHeaders_Set_other.
Qed.

(** ** The value generator *)

Lemma getValue_counter `{Runtime} elapsed version w :
  Type_ (Metric version) = "counter" →
  getValue elapsed version w =
    (Return (Seconds elapsed * Rate (Metric version))%float, w).
Proof. intros Hk. unfold getValue. by rewrite decide_True. Qed.

(** The gauge branch: one entry in the log, one call of the sampler. *)
Lemma getValue_gauge `{Runtime} elapsed version w :
  Type_ (Metric version) = "gauge" →
  getValue elapsed version w =
    let r := Beta_Rand ((Seconds elapsed + 1.0) * Alpha (Metric version))%float
                       ((Seconds elapsed + 1.0) * Beta (Metric version))%float
                       (rng w) in
    (match r.1 with
     | Return sample =>
         Return (Shift (Metric version) + sample * Multiplier (Metric version))%float
     | Panic msg => Panic msg
     end,
     gauge_world version w r.2).
Proof.
  intros Hk. unfold getValue. rewrite decide_False by (rewrite Hk; done).
  rewrite decide_True by done. unfold bind, log, draw, gauge_world. cbn [rng logged].
  by destruct (Beta_Rand _ _ (rng w)) as [[sample|msg] s].
Qed.

Lemma getValue_fallback `{Runtime} elapsed version w :
  Type_ (Metric version) ≠ "counter" → Type_ (Metric version) ≠ "gauge" →
  getValue elapsed version w = (Return 21.7639%float, w).
Proof. intros Hc Hg. unfold getValue. by rewrite !decide_False. Qed.

(** The seconds of a duration that is not negative are not negative. *)
Lemma Seconds_nonneg d : 0 <= d -> (0 <=? Seconds d)%float = true.
Proof.
  intros Hd. apply F64.nonneg_leb_zero. unfold Seconds, float64_of_int.
  pose proof (Z.quot_pos d Second Hd ltac:(done)) as Hsec.
  pose proof (Z.rem_nonneg d Second ltac:(done) Hd) as Hnsec.
  rewrite (proj2 (Z.ltb_ge _ _) Hsec), (proj2 (Z.ltb_ge _ _) Hnsec).
  rewrite FloatAxioms.add_spec, FloatAxioms.div_spec.
  assert (∃ m e, Prim2SF 1e9 = S754_finite false m e) as (m & e & ->).
  { by eexists _, _. }
  apply F64.SF64add_nonneg; [|apply F64.SF64div_nonneg]; apply F64.of_uint63_nonneg.
Qed.

(** What [getValue] comes to depends on the world only through the
    random source. *)
Lemma getValue_outcome `{Runtime} elapsed version w :
  ∃ o w', getValue elapsed version w = (o, w') ∧
    ∀ w0, rng w0 = rng w →
      ∃ w0', getValue elapsed version w0 = (o, w0') ∧ rng w0' = rng w'.
Proof.
  destruct (decide (Type_ (Metric version) = "counter")) as [Hc|Hc].
  { eexists _, _. split; [by apply getValue_counter|]. intros w0 Hw0.
    exists w0. by rewrite getValue_counter. }
  destruct (decide (Type_ (Metric version) = "gauge")) as [Hg|Hg].
  { eexists _, _. split; [by apply getValue_gauge|]. intros w0 Hw0.
    eexists. rewrite getValue_gauge by done. rewrite Hw0. split; reflexivity. }
  eexists _, _. split; [by apply getValue_fallback|]. intros w0 Hw0.
  exists w0. by rewrite getValue_fallback.
Qed.

(** ** The handler *)

Lemma handler_unauthorized `{Runtime} conf req elapsed w :
  MatchHeaders conf req = false →
  handler conf req elapsed w = (Return AuthorizationFailure, w).
Proof. intros Hm. unfold handler. by rewrite Hm. Qed.

Lemma handler_no_match `{Runtime} conf req elapsed w w1 :
  MatchHeaders conf req = true →
  GetVersion conf req w = (Return None, w1) →
  handler conf req elapsed w = (Return NoVariantMatch, w1).
Proof.
  intros Hm Hg. unfold handler. rewrite Hm. cbn [negb]. unfold bind at 1.
  by rewrite Hg.
Qed.

Lemma handler_value `{Runtime} conf req elapsed w w1 version v w2 :
  MatchHeaders conf req = true →
  GetVersion conf req w = (Return (Some version), w1) →
  getValue elapsed version w1 = (Return v, w2) →
  handler conf req elapsed w = (Return (NumericValue v), log_version version w2).
Proof.
  intros Hm Hg Hv. unfold handler. rewrite Hm. cbn [negb]. unfold bind at 1.
  rewrite Hg. unfold bind at 1. by rewrite Hv.
Qed.

(** Past the gate, with a variant resolved, the handler does what
    [getValue] comes to. *)
Lemma handler_resolved `{Runtime} conf req elapsed w w1 version :
  MatchHeaders conf req = true →
  GetVersion conf req w = (Return (Some version), w1) →
  handler conf req elapsed w =
    handler_after_getValue version (getValue elapsed version w1).
Proof.
  intros Hm Hg. unfold handler. rewrite Hm. cbn [negb]. unfold bind at 1.
  rewrite Hg. unfold bind at 1, handler_after_getValue.
  by destruct (getValue elapsed version w1) as [[x|msg] w'].
Qed.

(** Only the gauge branch of [getValue] can panic, and only with the
    panic of the sampler. *)
Lemma getValue_panic `{Runtime} elapsed version w msg w' :
  getValue elapsed version w = (Panic msg, w') →
  Type_ (Metric version) = "gauge" ∧
  (Beta_Rand ((Seconds elapsed + 1.0) * Alpha (Metric version))%float
             ((Seconds elapsed + 1.0) * Beta (Metric version))%float
             (rng w)).1 = Panic msg ∧
  w' = gauge_world version w
         (Beta_Rand ((Seconds elapsed + 1.0) * Alpha (Metric version))%float
                    ((Seconds elapsed + 1.0) * Beta (Metric version))%float
                    (rng w)).2.
Proof.
  destruct (decide (Type_ (Metric version) = "counter")) as [Hc|Hc].
  { by rewrite getValue_counter. }
  destruct (decide (Type_ (Metric version) = "gauge")) as [Hg|Hg].
  2: { by rewrite getValue_fallback. }
  rewrite getValue_gauge by done. cbn zeta.
  destruct (Beta_Rand _ _ (rng w)) as [[sample|m] s]; [done|].
  cbn [fst snd]. by intros [= -> <-].
Qed.

(** C8. A constraint whose pattern does not compile is not satisfied, and
    the variant that holds it does not match. Only that variant is lost.
    [GetVersion] still returns, without a panic, and what it returns is
    what it returns for the list without that variant: [nil] exactly when
    no other variant matches, and otherwise a variant among the others
    that matches. The variants after the lost one are still tried: when
    none before it matches, the first one after it that matches is
    returned. The error does not reach the answer of the handler, which
    is [AuthorizationFailure] when the gate fails, [NoVariantMatch] when
    [nil] is returned, and else what [getValue] comes to for the variant
    returned. *)
Theorem pattern_error_disqualifies_variant `{Runtime} (u : URIConf)
    (req : Request) (elapsed : Z) (w : World)
    (pre post : list VersionInfo) (version : VersionInfo) (c : Param)
    (err : string) :
  Versions u = (pre ++ version :: post)%list →
  c ∈ Params version →
  regexp_Compile (Value c) = inr err →
  ¬ satisfied req c ∧ ¬ matches req version ∧
  ∃ r w1 w2,
    GetVersion u req w = (Return r, w1) ∧
    GetVersion (with_Versions u (pre ++ post)) req w = (Return r, w2) ∧
    rng w1 = rng w ∧ rng w2 = rng w ∧
    (r = None ↔ Forall (λ v, ¬ matches req v) (pre ++ post)) ∧
    (∀ v, r = Some v → v ∈ (pre ++ post)%list ∧ matches req v) ∧
    (Forall (λ v, ¬ matches req v) pre →
       ∀ i v, post !! i = Some v → matches req v →
         (∀ j v', (j < i)%nat → post !! j = Some v' → ¬ matches req v') →
         r = Some v) ∧
    (MatchHeaders u req = false →
       handler u req elapsed w = (Return AuthorizationFailure, w)) ∧
    (MatchHeaders u req = true → r = None →
       handler u req elapsed w = (Return NoVariantMatch, w1)) ∧
    (MatchHeaders u req = true → ∀ v, r = Some v →
       handler u req elapsed w =
         handler_after_getValue v (getValue elapsed v w1)).
Proof.
  intros Hu Hc Herr.
  assert (¬ satisfied req c) as Hnc.
  { intros (val & val0 & _ & _ & _ & Hm). unfold regexp_Match in Hm.
    by rewrite Herr in Hm. }
  assert (¬ matches req version) as Hnv.
  { intros Hall. by eapply Hnc, Forall_forall. }
  split; [done|]. split; [done|].
  destruct (GetVersion_returns (with_Versions u (pre ++ post)) req w)
    as (r & w2 & Hrun2 & [Hrng2 _] & Hr).
  cbn [with_Versions Versions] in Hr.
  assert (∃ w1, GetVersion u req w = (Return r, w1) ∧ rng w1 = rng w) as (w1 & Hrun1 & Hrng1).
  { unfold GetVersion. rewrite Hu. destruct r as [v|].
    - destruct Hr as [[i Hi]%list_elem_of_lookup Hm].
      destruct (first_matching_index req _ i v Hi Hm) as (i0 & v0 & _ & Hi0 & Hm0 & Hpre0).
      destruct (GetVersion_versions_prefix req _ v0 Hpre0 Hm0 w) as (w0 & _ & Hrun0).
      assert (r0 : GetVersion (with_Versions u (pre ++ post)) req w = (Return (Some v0), w0)).
      { unfold GetVersion. cbn [with_Versions Versions].
        rewrite <- (take_drop_middle _ i0 v0 Hi0) at 1. apply Hrun0. }
      rewrite Hrun2 in r0. injection r0 as -> ->.
      clear Hrun0 Hi Hm i.
      destruct (decide (i0 < length pre)%nat) as [Hlt|Hge].
      + rewrite lookup_app_l in Hi0 by done.
        rewrite take_app_le in Hpre0 by lia.
        destruct (GetVersion_versions_prefix req _ v0 Hpre0 Hm0 w) as (w1 & [Hr1 _] & Hrun1).
        exists w1. split; [|done].
        rewrite <- (take_drop_middle _ i0 v0 Hi0) at 1. rewrite <- app_assoc.
        rewrite <- app_comm_cons. apply Hrun1.
      + rewrite lookup_app_r in Hi0 by lia.
        rewrite take_app_ge in Hpre0 by lia.
        apply Forall_app in Hpre0 as [Hpre Hpost].
        assert (Forall (λ v, ¬ matches req v)
                  (pre ++ version :: take (i0 - length pre) post)) as Hall.
        { apply Forall_app. split; [done|]. by constructor. }
        destruct (GetVersion_versions_prefix req _ v0 Hall Hm0 w) as (w1 & [Hr1 _] & Hrun1).
        exists w1. split; [|done].
        rewrite <- (take_drop_middle _ _ v0 Hi0) at 1.
        specialize (Hrun1 (drop (S (i0 - length pre)) post)).
        by rewrite <- app_assoc, <- app_comm_cons in Hrun1.
    - apply Forall_app in Hr as [Hpre Hpost].
      assert (Forall (λ v, ¬ matches req v) (pre ++ version :: post)) as Hall.
      { apply Forall_app. split; [done|]. by constructor. }
      destruct (GetVersion_versions_none req _ Hall w) as (w1 & [Hr1 _] & Hrun1).
      by exists w1. }
  exists r, w1, w2. split_and!; try done.
  - destruct r as [v|]; [|done]. split; [done|]. intros Hnone.
    destruct Hr as [Hin Hm]. rewrite Forall_forall in Hnone. by destruct (Hnone v Hin).
  - intros v ->. exact Hr.
  - intros Hpre i v Hi Hm Hfirst.
    assert (Forall (λ v, ¬ matches req v) (pre ++ version :: take i post)) as Hall.
    { apply Forall_app. split; [done|]. constructor; [done|].
      apply Forall_lookup. intros j v' [Hj Hlt]%lookup_take_Some. by eapply Hfirst. }
    destruct (GetVersion_versions_prefix req _ v Hall Hm w) as (w' & _ & Hrun).
    specialize (Hrun (drop (S i) post)).
    rewrite <- app_assoc, <- app_comm_cons, (take_drop_middle _ i v Hi) in Hrun.
    unfold GetVersion in Hrun1. rewrite Hu, Hrun in Hrun1. by injection Hrun1 as <- _.
  - intros Hgate. by apply handler_unauthorized.
  - intros Hgate ->. by eapply handler_no_match.
  - intros Hgate v ->. by apply handler_resolved.
Qed.

(** C4, as amended. The handler gives one of three answers, which differ
    from each other, unless the sampler panics. When the header gate
    fails the answer is [AuthorizationFailure]; the resolver is not run:
    nothing is logged, the random source is left as it was, and the
    answer is the same whatever the variants of the configuration are.
    When the gate passes and no variant matches, the answer is
    [NoVariantMatch]. When the gate passes and a variant matches, the
    answer carries the number [getValue] returns for the variant that
    [GetVersion] returned. The handler panics, and so answers nothing,
    only past the gate, for a resolved variant of type [gauge], with the
    panic of the sampler. *)
Theorem handler_three_outcomes_or_sampler_panic `{Runtime} (conf : URIConf)
    (req : Request) (elapsed : Z) (w : World) :
  ((∃ resp w',
      handler conf req elapsed w = (Return resp, w') ∧
      ((MatchHeaders conf req = false ∧ resp = AuthorizationFailure ∧ w' = w ∧
        ∀ versions,
          handler (with_Versions conf versions) req elapsed w = (Return resp, w))
       ∨
       (MatchHeaders conf req = true ∧
        Forall (λ v, ¬ matches req v) (Versions conf) ∧
        resp = NoVariantMatch)
       ∨
       (MatchHeaders conf req = true ∧
        ∃ version w1 v w2,
          version ∈ Versions conf ∧ matches req version ∧
          GetVersion conf req w = (Return (Some version), w1) ∧
          getValue elapsed version w1 = (Return v, w2) ∧
          resp = NumericValue v)))
   ∨
   (∃ msg w' version w1,
      handler conf req elapsed w = (Panic msg, w') ∧
      MatchHeaders conf req = true ∧
      version ∈ Versions conf ∧ matches req version ∧
      GetVersion conf req w = (Return (Some version), w1) ∧
      Type_ (Metric version) = "gauge" ∧
      (Beta_Rand ((Seconds elapsed + 1.0) * Alpha (Metric version))%float
                 ((Seconds elapsed + 1.0) * Beta (Metric version))%float
                 (rng w)).1 = Panic msg)) ∧
  AuthorizationFailure ≠ NoVariantMatch ∧
  (∀ v, NumericValue v ≠ AuthorizationFailure ∧ NumericValue v ≠ NoVariantMatch).
Proof.
  split; [|split; [done|by split]].
  destruct (MatchHeaders conf req) eqn:Hm.
  - destruct (GetVersion_returns conf req w) as (r & w1 & Hg & [Hrng _] & Hr).
    destruct r as [version|].
    + destruct Hr as [Hin Hmatch].
      destruct (getValue elapsed version w1) as [[v|msg] w2] eqn:Hv.
      * left. exists (NumericValue v), (log_version version w2).
        split; [by eapply handler_value|]. right. right. split; [done|].
        by exists version, w1, v, w2.
      * right. exists msg, w2, version, w1.
        destruct (getValue_panic _ _ _ _ _ Hv) as (Hgauge & Hpanic & _).
        split_and!; try done.
        -- by rewrite (handler_resolved _ _ _ _ w1 version), Hv.
        -- by rewrite <- Hrng.
    + left. exists NoVariantMatch, w1. split; [by eapply handler_no_match|].
      right. left. done.
  - left. exists AuthorizationFailure, w. split; [by apply handler_unauthorized|].
    left. split_and!; try done. intros versions. by apply handler_unauthorized.
Qed.

(** C4 as stated fails. An endpoint with no required header and one
    variant, a gauge without constraints whose [alpha] is 0: the request
    passes the gate, the variant is resolved, and the sampler, called
    with a shape parameter that is not positive, panics. The handler
    gives none of the three answers. *)
Lemma handler_gauge_zero_alpha_no_answer :
  let version :=
    {| Params := [];
       Metric := {| Type_ := "gauge"; Rate := 0; Shift := 0; Multiplier := 1;
                    Alpha := 0; Beta := 1 |} |} in
  let conf := {| Versions := [version]; Headers := ∅; URI := "/api/v1/query";
                 Provider := "Prometheus" |} in
  @MatchHeaders Standin.runtime conf Scenario.plain = true ∧
  (∃ w', @handler Standin.runtime conf Scenario.plain 0 Scenario.w0 =
           (Panic "gamma: alpha <= 0", w')) ∧
  ¬ (∃ resp w', @handler Standin.runtime conf Scenario.plain 0 Scenario.w0 =
                  (Return resp, w')).
Proof.
  split_and!; [reflexivity|by eexists|]. by intros (resp & w' & Hrun).
Qed.

(** C5. For a metric of type [counter], [getValue] returns the elapsed
    seconds times the rate, and touches neither the log nor the random
    source. The fields of a gauge play no part: two counters of equal rate
    get equal values. With rate 2.0 and ten seconds elapsed the value is
    exactly 20.0. *)
Theorem getValue_counter_is_elapsed_times_rate `{Runtime} (version : VersionInfo)
    (elapsed : Z) (w : World) :
  Type_ (Metric version) = "counter" →
  getValue elapsed version w =
    (Return (Seconds elapsed * Rate (Metric version))%float, w) ∧
  (∀ shift multiplier alpha beta,
     getValue elapsed
       {| Params := Params version;
          Metric := {| Type_ := "counter"; Rate := Rate (Metric version);
                       Shift := shift; Multiplier := multiplier;
                       Alpha := alpha; Beta := beta |} |} w =
     getValue elapsed version w) ∧
  (Rate (Metric version) = 2.0%float →
     Seconds (10 * Second) = 10.0%float ∧
     getValue (10 * Second) version w = (Return 20.0%float, w)).
Proof.
  intros Hk. split_and!.
  - by apply getValue_counter.
  - intros shift multiplier alpha beta. by rewrite !getValue_counter.
  - intros Hrate. split; [reflexivity|]. rewrite getValue_counter by done.
    by rewrite Hrate.
Qed.

(** C7. For a metric whose type is neither [counter] nor [gauge],
    [getValue] returns 21.7639 whatever the other fields and the elapsed
    time are, and touches neither the log nor the random source. This is no
    error: when such a variant is the one resolved for an authorized
    request, the handler answers with status 200 and that number. *)
Theorem getValue_unrecognized_type_fallback `{Runtime} (version : VersionInfo)
    (elapsed : Z) (w : World) :
  Type_ (Metric version) ≠ "counter" →
  Type_ (Metric version) ≠ "gauge" →
  getValue elapsed version w = (Return 21.7639%float, w) ∧
  (∀ conf req w0,
     MatchHeaders conf req = true →
     GetVersion conf req w0 = (Return (Some version), w) →
     handler conf req elapsed w0 =
       (Return (NumericValue 21.7639%float), log_version version w) ∧
     StatusCode (NumericValue 21.7639%float) = StatusOK).
Proof.
  intros Hc Hg. split; [by apply getValue_fallback|].
  intros conf req w0 Hm Hv. split; [|done].
  eapply handler_value; [done..|]. by apply getValue_fallback.
Qed.

(** C10. [getHandlerFunc] returns a handler exactly when the provider is
    the string [Prometheus]; for every other provider, a different case of
    the same letters included, it panics with the message of the source.
    There is no fallback, unlike in [getValue], which returns the number
    21.7639 for every metric whose type it does not know. *)
Theorem getHandlerFunc_panics_unless_Prometheus `{Runtime} (conf : URIConf) :
  (Provider conf = "Prometheus" → getHandlerFunc conf = Return (handler conf)) ∧
  (Provider conf ≠ "Prometheus" →
     getHandlerFunc conf = Panic ("unknown provider: " +:+ Provider conf)) ∧
  ((∃ f, getHandlerFunc conf = Return f) ↔ Provider conf = "Prometheus") ∧
  (∀ elapsed version w,
     Type_ (Metric version) ≠ "counter" → Type_ (Metric version) ≠ "gauge" →
     getValue elapsed version w = (Return 21.7639%float, w)).
Proof.
  assert (∀ elapsed version w,
            Type_ (Metric version) ≠ "counter" → Type_ (Metric version) ≠ "gauge" →
            getValue elapsed version w = (Return 21.7639%float, w)) as Hvalue.
  { intros elapsed version w. apply getValue_fallback. }
  unfold getHandlerFunc. destruct (decide (Provider conf = "Prometheus")) as [Hp|Hp].
  - split_and!; [done|done| |done]. split; [done|]. intros _. by eexists.
  - split_and!; [done|done| |done]. split; [|done]. by intros [f Hf].
Qed.




(** ** The scenario, evaluated *)
Module ScenarioFacts.
Import Scenario.

(** A request with [version=canary] gets [V1], with its counter: twenty
    after ten seconds. *)
Example canary_gets_V1 :
  (@handler Standin.runtime conf canary (10 * Second) w0).1 =
    Return (NumericValue 20%float) ∧
  (@GetVersion Standin.runtime conf canary w0).1 = Return (Some V1).
Proof. split; reflexivity. Qed.

(** Requests with [version=stable], or with no [version], get [V2]. *)
Example others_get_V2 :
  (@GetVersion Standin.runtime conf stable w0).1 = Return (Some V2) ∧
  (@GetVersion Standin.runtime conf plain w0).1 = Return (Some V2).
Proof. split; reflexivity. Qed.

(** Header values are compared as they are: [Secret] is not [secret], and
    the request is turned down with nothing logged. *)
Example intruder_is_turned_down :
  @handler Standin.runtime conf intruder (10 * Second) w0 =
    (Return AuthorizationFailure, w0).
Proof. reflexivity. Qed.

(** Without the catch-all variant a [stable] request finds no variant. *)
Example stable_without_catch_all :
  (@handler Standin.runtime (with_Versions conf [V1]) stable (10 * Second) w0).1 =
    Return NoVariantMatch.
Proof. reflexivity. Qed.

(** The pattern [gr] matches in [green]; the pattern [*] does not compile. *)
Example pattern_gr_green :
  @regexp_Match Standin.runtime "gr" "green" = (true, None) ∧
  @regexp_Match Standin.runtime "gr" "blue" = (false, None) ∧
  @regexp_Match Standin.runtime "*" "green" =
    (false, Some "missing argument to repetition operator").
Proof. split_and!; reflexivity. Qed.

(** The provider is compared as it is, too. *)
Example provider_in_lower_case :
  @getHandlerFunc Standin.runtime
    {| Versions := [V1; V2]; Headers := ∅; URI := "/api/v1/query";
       Provider := "prometheus" |} =
  Panic "unknown provider: prometheus".
Proof. reflexivity. Qed.

End ScenarioFacts.

(** ** The theorems at the scenario *)

(** Both variants of the scenario match a [canary] request; the catch-all
    is the second one. *)
Lemma GetVersion_first_match_wins_witness :
  ∃ i vi w',
    (i ≤ 1)%nat ∧ Versions Scenario.conf !! i = Some vi ∧
    @matches Standin.runtime Scenario.canary vi ∧
    (∀ k vk, (k < i)%nat → Versions Scenario.conf !! k = Some vk →
       ¬ @matches Standin.runtime Scenario.canary vk) ∧
    @GetVersion Standin.runtime Scenario.conf Scenario.canary Scenario.w0 =
      (Return (Some vi), w') ∧
    ∀ later,
      @GetVersion Standin.runtime
        (with_Versions Scenario.conf (take (S i) (Versions Scenario.conf) ++ later))
        Scenario.canary Scenario.w0 = (Return (Some vi), w').
Proof.
  apply (@GetVersion_first_match_wins Standin.runtime Scenario.conf
           Scenario.canary Scenario.w0 1%nat Scenario.V2).
  - reflexivity.
  - constructor.
Defined.

(** The counter of [V1], of rate 2, after ten seconds. *)
Lemma getValue_counter_is_elapsed_times_rate_witness :
  @getValue Standin.runtime (10 * Second) Scenario.V1 Scenario.w0 =
    (Return 20%float, Scenario.w0).
Proof.
  destruct (@getValue_counter_is_elapsed_times_rate Standin.runtime
              Scenario.V1 (10 * Second) Scenario.w0) as (_ & _ & Hten).
  - reflexivity.
  - apply Hten. reflexivity.
Defined.

(** A metric of type [histogram]. *)
Lemma getValue_unrecognized_type_fallback_witness :
  @getValue Standin.runtime (10 * Second) Scenario.Vodd Scenario.w0 =
    (Return 21.7639%float, Scenario.w0).
Proof.
  destruct (@getValue_unrecognized_type_fallback Standin.runtime
              Scenario.Vodd (10 * Second) Scenario.w0) as [Hv _].
  - discriminate.
  - discriminate.
  - exact Hv.
Defined.

(** [Vbad], whose pattern [*] does not compile, placed before the
    catch-all: the catch-all is what a [canary] request gets. *)
Lemma pattern_error_disqualifies_variant_witness :
  ¬ @matches Standin.runtime Scenario.canary Scenario.Vbad ∧
  ∃ w1,
    @GetVersion Standin.runtime
      (with_Versions Scenario.conf [Scenario.Vbad; Scenario.V2])
      Scenario.canary Scenario.w0 = (Return (Some Scenario.V2), w1).
Proof.
  destruct (@pattern_error_disqualifies_variant Standin.runtime
              (with_Versions Scenario.conf [Scenario.Vbad; Scenario.V2])
              Scenario.canary 0 Scenario.w0 [] [Scenario.V2] Scenario.Vbad
              {| Name := "version"; Value := "*" |}
              "missing argument to repetition operator")
    as (_ & Hno & r & w1 & w2 & Hrun1 & _ & _ & _ & _ & _ & Hlater & _).
  - reflexivity.
  - apply list_elem_of_here.
  - reflexivity.
  - split; [exact Hno|]. exists w1. rewrite Hrun1.
    rewrite (Hlater (Forall_nil_2 _) 0%nat Scenario.V2); [reflexivity|reflexivity| |].
    + constructor.
    + intros j v' Hj. lia.
Defined.

(** ** main *)

Local Set Warnings "-clear-no-such-hyp".

Lemma with_handlers_nil `{Runtime} p : with_handlers p [] = p.
Proof. destruct p. unfold with_handlers. cbn. by rewrite app_nil_r. Qed.

Lemma with_handlers_app `{Runtime} p hs hs' :
  with_handlers (with_handlers p hs) hs' = with_handlers p (hs ++ hs').
Proof. unfold with_handlers. cbn. by rewrite app_assoc. Qed.

(** The first loop either passes over every configuration, or stops at the
    first one whose URI it has seen. *)
Lemma main_checkURIs_run `{Runtime} uriConfs :
  ∀ uriset p,
    (NoDup (URI <$> uriConfs) ∧ (∀ u, u ∈ URI <$> uriConfs → u ∉ uriset) ∧
     main_checkURIs uriConfs uriset p = (Return tt, p))
    ∨
    (∃ pre conf post,
       uriConfs = (pre ++ conf :: post)%list ∧
       NoDup (URI <$> pre) ∧ (∀ u, u ∈ URI <$> pre → u ∉ uriset) ∧
       (URI conf ∈ uriset ∨ URI conf ∈ URI <$> pre) ∧
       main_checkURIs uriConfs uriset p =
         (Panic "URIs are not unique",
          with_errors p [ErrorURISet (list_to_set (URI <$> pre) ∪ uriset);
                         ErrorURI (URI conf)])).
Proof.
  induction uriConfs as [|conf rest IH]; intros uriset p.
  - left. split_and!; [constructor|by intros u ?%elem_of_nil|done].
  - cbn [main_checkURIs]. destruct (decide (URI conf ∈ uriset)) as [Hin|Hout].
    + right. exists [], conf, rest. split_and!; [done|constructor| |by left|].
      * by intros u ?%elem_of_nil.
      * cbn. by rewrite (left_id_L ∅ (∪)).
    + destruct (IH ({[URI conf]} ∪ uriset) p)
        as [(Hnd & Hfresh & Hrun)|(pre & c & post & -> & Hnd & Hfresh & Hdup & Hrun)].
      * left. split_and!; [|by set_solver|done].
        cbn. constructor; [|done]. intros Hin. apply (Hfresh _ Hin). set_solver.
      * right. exists (conf :: pre), c, post. split_and!; [done| | | |].
        -- cbn. constructor; [|done]. intros Hin. apply (Hfresh _ Hin). set_solver.
        -- set_solver.
        -- set_solver.
        -- rewrite Hrun. do 3 f_equal. cbn. f_equal. set_solver.
Qed.

Lemma registration_patterns `{Runtime} (uriConfs : list URIConf) :
  (registration <$> uriConfs).*1 = URI <$> uriConfs.
Proof. induction uriConfs as [|conf rest IH]; [done|]. cbn. by rewrite IH. Qed.

Lemma with_handlers_patterns `{Runtime} p (uriConfs : list URIConf) :
  (handle_funcs (with_handlers p (registration <$> uriConfs))).*1 =
  ((handle_funcs p).*1 ++ (URI <$> uriConfs))%list.
Proof. unfold with_handlers. cbn. by rewrite fmap_app, registration_patterns. Qed.

Lemma accepted_in_order_app `{Host} registered (l1 l2 : list URIConf) :
  accepted_in_order registered (l1 ++ l2) ↔
  accepted_in_order registered l1 ∧
  accepted_in_order (registered ++ (URI <$> l1)) l2.
Proof.
  revert registered. induction l1 as [|conf l1 IH]; intros registered; cbn.
  - rewrite app_nil_r. naive_solver.
  - rewrite IH, <- app_assoc. cbn. naive_solver.
Qed.

(** The second loop gets through the configurations that are accepted. *)
Lemma main_register_accepted `{Runtime} `{Host} pre :
  ∀ rest p,
    accepted_in_order (handle_funcs p).*1 pre →
    main_register (pre ++ rest) p =
      main_register rest (with_handlers p (registration <$> pre)).
Proof.
  induction pre as [|conf pre IH]; intros rest p Hacc.
  - cbn [fmap list_fmap app]. by rewrite with_handlers_nil.
  - destruct Hacc as (Hp & Hmux & Hacc). cbn [app main_register].
    unfold getHandlerFunc. rewrite decide_True by done. rewrite Hmux.
    fold (with_handlers p [(URI conf, handler conf)]).
    rewrite IH.
    + by rewrite with_handlers_app.
    + unfold with_handlers. cbn. by rewrite fmap_app.
Qed.

(** The second loop either registers a handler for every configuration,
    or stops at the first one that is not accepted. *)
Lemma main_register_run `{Runtime} `{Host} uriConfs :
  ∀ p,
    (accepted_in_order (handle_funcs p).*1 uriConfs ∧
     main_register uriConfs p =
       (Return tt, with_handlers p (registration <$> uriConfs)))
    ∨
    (∃ pre conf post,
       uriConfs = (pre ++ conf :: post)%list ∧
       accepted_in_order (handle_funcs p).*1 pre ∧
       ((Provider conf ≠ "Prometheus" ∧
         main_register uriConfs p =
           (Panic ("unknown provider: " +:+ Provider conf),
            with_handlers p (registration <$> pre)))
        ∨
        (Provider conf = "Prometheus" ∧
         ∃ msg,
           HandleFunc_panic ((handle_funcs p).*1 ++ (URI <$> pre)) (URI conf) = Some msg ∧
           main_register uriConfs p =
             (Panic msg, with_handlers p (registration <$> pre))))).
Proof.
  induction uriConfs as [|conf rest IH]; intros p.
  - left. split; [done|]. cbn [fmap list_fmap]. by rewrite with_handlers_nil.
  - destruct (decide (Provider conf = "Prometheus")) as [Hp|Hp].
    2: { right. exists [], conf, rest. split_and!; [done|done|]. left.
         split; [done|]. cbn [main_register fmap list_fmap]. unfold getHandlerFunc.
         rewrite decide_False by done. by rewrite with_handlers_nil. }
    destruct (HandleFunc_panic (handle_funcs p).*1 (URI conf)) as [msg|] eqn:Hmux.
    { right. exists [], conf, rest. split_and!; [done|done|]. right.
      split; [done|]. exists msg. cbn [fmap list_fmap]. rewrite app_nil_r.
      split; [done|]. cbn [main_register]. unfold getHandlerFunc.
      rewrite decide_True by done. by rewrite Hmux, with_handlers_nil. }
    assert (accepted_in_order (handle_funcs p).*1 [conf]) as Hone by done.
    pose proof (main_register_accepted [conf] rest p Hone) as Hstep.
    cbn [app] in Hstep. rewrite Hstep.
    destruct (IH (with_handlers p (registration <$> [conf])))
      as [(Hacc & Hrun)|(pre & c & post & -> & Hacc & Hcase)];
      rewrite with_handlers_patterns in Hacc.
    + left. split.
      * by apply (accepted_in_order_app _ [conf] rest).
      * by rewrite Hrun, with_handlers_app.
    + right. exists (conf :: pre), c, post. split; [done|]. split.
      * by apply (accepted_in_order_app _ [conf] pre).
      * rewrite with_handlers_patterns, with_handlers_app, <- app_assoc in Hcase.
        exact Hcase.
Qed.

Lemma NoDup_app_repeat {A} (f : A → string) (pre : list A) conf post :
  f conf ∈ f <$> pre → ¬ NoDup (f <$> (pre ++ conf :: post)%list).
Proof.
  intros Hin Hnd. rewrite fmap_app, fmap_cons in Hnd.
  apply NoDup_app in Hnd as (_ & Hdisj & _). apply (Hdisj _ Hin). by left.
Qed.

(** X1. The first loop of [main] lets a list of configurations pass, and
    logs nothing, exactly when their URIs are pairwise different.
    Otherwise it panics at the first configuration whose URI came before,
    after logging the set of the URIs before it and that URI. *)
Theorem main_checkURIs_iff_distinct `{Runtime} (uriConfs : list URIConf)
    (p : Process) :
  (main_checkURIs uriConfs ∅ p = (Return tt, p) ↔ NoDup (URI <$> uriConfs)) ∧
  (¬ NoDup (URI <$> uriConfs) →
     ∃ pre conf post,
       uriConfs = (pre ++ conf :: post)%list ∧
       NoDup (URI <$> pre) ∧ URI conf ∈ URI <$> pre ∧
       main_checkURIs uriConfs ∅ p =
         (Panic "URIs are not unique",
          with_errors p [ErrorURISet (list_to_set (URI <$> pre));
                         ErrorURI (URI conf)])).
Proof.
  destruct (main_checkURIs_run uriConfs ∅ p)
    as [(Hnd & _ & Hrun)|(pre & conf & post & -> & Hnd & _ & Hdup & Hrun)].
  - split; [done|]. by intros [].
  - destruct Hdup as [Hin|Hin]; [by apply not_elem_of_empty in Hin|].
    rewrite (right_id_L ∅ (∪)) in Hrun.
    pose proof (NoDup_app_repeat URI pre conf post Hin) as Hno.
    split; [split; [by rewrite Hrun|done]|]. intros _. by exists pre, conf, post.
Qed.

(** X2. The second loop of [main] takes the configurations in their
    order: for each it makes the handler, then calls [http.HandleFunc]
    with the URI and the handler. It gets through the list when every
    provider is [Prometheus] and the mux takes every URI after those
    before it. It stops at the first configuration for which that fails,
    with the panic of [getHandlerFunc] when the provider is not known,
    else with the panic of [http.HandleFunc]: the configurations before
    it are registered, that one and those after it are not. *)
Theorem main_register_until_refused `{Runtime} `{Host}
    (uriConfs : list URIConf) (p : Process) :
  (accepted_in_order (handle_funcs p).*1 uriConfs →
     main_register uriConfs p =
       (Return tt, with_handlers p (registration <$> uriConfs))) ∧
  (∀ pre conf post,
     uriConfs = (pre ++ conf :: post)%list →
     accepted_in_order (handle_funcs p).*1 pre →
     (Provider conf ≠ "Prometheus" →
        main_register uriConfs p =
          (Panic ("unknown provider: " +:+ Provider conf),
           with_handlers p (registration <$> pre))) ∧
     (Provider conf = "Prometheus" →
        ∀ msg,
          HandleFunc_panic ((handle_funcs p).*1 ++ (URI <$> pre)) (URI conf) = Some msg →
          main_register uriConfs p =
            (Panic msg, with_handlers p (registration <$> pre)))).
Proof.
  split.
  - intros Hacc. rewrite <- (app_nil_r uriConfs) at 1.
    by rewrite main_register_accepted.
  - intros pre conf post -> Hacc.
    rewrite main_register_accepted by done. cbn [main_register].
    unfold getHandlerFunc. split.
    + intros Hp. by rewrite decide_False.
    + intros Hp msg Hmux. rewrite decide_True by done.
      by rewrite with_handlers_patterns, Hmux.
Qed.

(** X3. [main] reaches [http.ListenAndServe] exactly when the environment
    names a URL, the document behind it is fetched, read and decoded, the
    URIs of the configurations are pairwise different, every provider is
    [Prometheus] and [http.HandleFunc] takes every URI. It has then
    logged no error, called [http.HandleFunc] once for each
    configuration, in their order, and it listens on port 8080. *)
Theorem main_serves_iff `{Runtime} `{Host} (p : Process) :
  main = (Return tt, p) ↔
  ∃ resp body uriConfs,
    os_Getenv "CONFIG_URL" ≠ "" ∧
    http_Get (os_Getenv "CONFIG_URL") = inl resp ∧
    ioutil_ReadAll resp = inl body ∧
    yaml_Unmarshal body = inl uriConfs ∧
    NoDup (URI <$> uriConfs) ∧
    accepted_in_order [] uriConfs ∧
    p = {| error_log := [];
           handle_funcs := registration <$> uriConfs;
           listening := Some ":8080" |}.
Proof.
  unfold main.
  destruct (os_Getenv "CONFIG_URL") as [|a url] eqn:Henv.
  { cbn. split; [done|]. by intros (? & ? & ? & ? & _). }
  cbn [String.length Nat.eqb].
  assert (os_Getenv "CONFIG_URL" ≠ "") as Hne by by rewrite Henv.
  rewrite <- Henv. clear a url Henv.
  destruct (http_Get (os_Getenv "CONFIG_URL")) as [resp|err] eqn:Hget.
  2: { split; [done|]. by intros (? & ? & ? & _ & ? & _). }
  destruct (ioutil_ReadAll resp) as [body|err] eqn:Hread.
  2: { split; [done|]. intros (? & ? & ? & _ & ? & ? & _). simplify_eq. congruence. }
  destruct (yaml_Unmarshal body) as [uriConfs|err] eqn:Hyaml.
  2: { split; [done|]. intros (? & ? & ? & _ & ? & ? & ? & _). simplify_eq. congruence. }
  destruct (main_checkURIs_run uriConfs ∅ Process_start)
    as [(Hnd & _ & ->)|(pre & conf & post & -> & Hnd & _ & Hdup & ->)].
  2: { split; [done|]. intros (? & ? & ? & _ & ? & ? & ? & Hnd' & _).
       exfalso. simplify_eq.
       assert (x1 = pre ++ conf :: post)%list as -> by congruence.
       destruct Hdup as [Hin|Hin]; [by apply not_elem_of_empty in Hin|].
       by eapply NoDup_app_repeat. }
  destruct (main_register_run uriConfs Process_start)
    as [(Hall & ->)|(pre & conf & post & -> & Hall & Hcase)].
  2: { assert (¬ accepted_in_order [] (pre ++ conf :: post)) as Hnot.
       { intros [_ (Hp & Hmux & _)]%accepted_in_order_app.
         destruct Hcase as [[Hp' _]|(_ & msg & Hmux' & _)]; [done|].
         change ((handle_funcs Process_start).*1) with (@nil string) in Hmux'.
         congruence. }
       destruct Hcase as [[_ ->]|(_ & msg & _ & ->)];
         (split; [done|]); intros (? & ? & ? & _ & ? & ? & ? & _ & Hall' & _);
         exfalso; simplify_eq;
         assert (x1 = pre ++ conf :: post)%list as -> by congruence; done. }
  cbn. split.
  - intros [= <-]. exists resp, body, uriConfs. by split_and!.
  - intros (? & ? & ? & _ & ? & ? & ? & _ & _ & ->). simplify_eq.
    do 3 f_equal. congruence.
Qed.

(** X4. A panic of [main] ends the start of the process: [main] has not
    called [http.ListenAndServe]. It has logged an error only when the
    panic is the one for repeated URIs, and it has then registered no
    handler. It has registered handlers only when the panic comes from
    the second loop: the one of [getHandlerFunc] for a provider that is
    not known, or one of [http.HandleFunc] for a URI. When [main] does
    not panic it listens on port 8080 and has logged no error. *)
Theorem main_panic_never_serves `{Runtime} `{Host} :
  match main with
  | (Panic msg, p) =>
      listening p = None ∧
      (error_log p ≠ [] → msg = "URIs are not unique" ∧ handle_funcs p = []) ∧
      (handle_funcs p ≠ [] →
         error_log p = [] ∧
         ((∃ conf, msg = "unknown provider: " +:+ Provider conf ∧
                   Provider conf ≠ "Prometheus") ∨
          (∃ conf, HandleFunc_panic (handle_funcs p).*1 (URI conf) = Some msg)))
  | (Return _, p) => listening p = Some ":8080" ∧ error_log p = []
  end.
Proof.
  unfold main.
  destruct (String.length (os_Getenv "CONFIG_URL") =? 0)%nat; [done|].
  destruct (http_Get (os_Getenv "CONFIG_URL")) as [resp|err]; [|done].
  destruct (ioutil_ReadAll resp) as [body|err]; [|done].
  destruct (yaml_Unmarshal body) as [uriConfs|err]; [|done].
  destruct (main_checkURIs_run uriConfs ∅ Process_start)
    as [(Hnd & _ & ->)|(pre & conf & post & -> & Hnd & _ & Hdup & ->)]; [|done].
  destruct (main_register_run uriConfs Process_start)
    as [(Hall & ->)|(pre & conf & post & -> & Hall & [[Hp ->]|(Hp & msg & Hmux & ->)])];
    [done| |].
  - cbn. split_and!; [done|done|]. intros _. split; [done|]. left. by exists conf.
  - split_and!; [done|done|]. intros _. split; [done|]. right. exists conf.
    by rewrite with_handlers_patterns.
Qed.

(** X5. The URIs are checked before any handler is made: when the
    configurations decoded hold a repeated URI, [main] panics with
    [URIs are not unique] and has called [http.HandleFunc] for none of
    them, whatever their providers are. *)
Theorem main_repeated_URI_before_providers `{Runtime} `{Host}
    (resp : ResponseBody) (body : string) (uriConfs : list URIConf) :
  os_Getenv "CONFIG_URL" ≠ "" →
  http_Get (os_Getenv "CONFIG_URL") = inl resp →
  ioutil_ReadAll resp = inl body →
  yaml_Unmarshal body = inl uriConfs →
  ¬ NoDup (URI <$> uriConfs) →
  ∃ p, main = (Panic "URIs are not unique", p) ∧
       handle_funcs p = [] ∧ listening p = None ∧ error_log p ≠ [].
Proof.
  intros Henv Hget Hread Hyaml Hdup. unfold main.
  destruct (os_Getenv "CONFIG_URL") as [|a url] eqn:Hurl; [done|].
  cbn [String.length Nat.eqb]. rewrite Hget, Hread, Hyaml.
  destruct (main_checkURIs_run uriConfs ∅ Process_start)
    as [(Hnd & _ & ->)|(pre & conf & post & -> & Hnd & _ & _ & ->)]; [done|].
  eexists. split; [done|]. by split_and!.
Qed.

(** The scenario's endpoint and one with the same URI and a provider that
    is not known: the repeated URI is what [main] reports. *)
Lemma main_repeated_URI_before_providers_witness :
  ∃ p, @main Standin.runtime (StandinHost.host [Scenario.conf; StandinHost.twin]) =
         (Panic "URIs are not unique", p) ∧
       handle_funcs p = [] ∧ listening p = None ∧ error_log p ≠ [].
Proof.
  apply (@main_repeated_URI_before_providers Standin.runtime
           (StandinHost.host [Scenario.conf; StandinHost.twin])
           "versions: ..." "versions: ..." [Scenario.conf; StandinHost.twin]).
  - discriminate.
  - reflexivity.
  - reflexivity.
  - reflexivity.
  - intros Hnd. apply NoDup_cons in Hnd as [Hnotin _]. apply Hnotin. by left.
Defined.

(** [main] on the scenario's endpoint and a second one, and on a list that
    ends with a provider that is not known. *)
Example main_serves_two_endpoints :
  @main Standin.runtime (StandinHost.host [Scenario.conf; StandinHost.other]) =
    (Return tt,
     {| error_log := [];
        handle_funcs := [@registration Standin.runtime Scenario.conf;
                         @registration Standin.runtime StandinHost.other];
        listening := Some ":8080" |}).
Proof. reflexivity. Qed.

Example main_stops_at_stranger :
  @main Standin.runtime
    (StandinHost.host [Scenario.conf; StandinHost.stranger; StandinHost.other]) =
    (Panic "unknown provider: Datadog",
     {| error_log := [];
        handle_funcs := [@registration Standin.runtime Scenario.conf];
        listening := None |}).
Proof. reflexivity. Qed.

(** An endpoint with no URI: the mux does not take the empty pattern. *)
Example main_stops_at_nowhere :
  @main Standin.runtime
    (StandinHost.host [Scenario.conf; StandinHost.nowhere; StandinHost.other]) =
    (Panic "http: invalid pattern",
     {| error_log := [];
        handle_funcs := [@registration Standin.runtime Scenario.conf];
        listening := None |}).
Proof. reflexivity. Qed.

(** ** More on the resolver *)

Lemma Query_first_value req k :
  (Query req !! k = None ∧ first_value req k = None) ∨
  (∃ val0 rest, Query req !! k = Some (val0 :: rest) ∧ first_value req k = Some val0).
Proof.
  rewrite Query_lookup. unfold first_value.
  destruct (values_of k (QueryPairs req)) as [|val0 rest]; [by left|right; eauto].
Qed.

(** The inner loop reads the query through the first values of the
    parameters that the constraints name. *)
Lemma GetVersion_params_first_values `{Runtime} req req' params :
  (∀ c, c ∈ params → first_value req' (Name c) = first_value req (Name c)) →
  ∀ found w, GetVersion_params req' params found w = GetVersion_params req params found w.
Proof.
  induction params as [|c rest IH]; intros Hsame found w; [done|].
  assert (first_value req' (Name c) = first_value req (Name c)) as Hc
    by (apply Hsame; by left).
  assert (∀ found w, GetVersion_params req' rest found w =
                     GetVersion_params req rest found w) as Hrest.
  { apply IH. intros c' Hc'. apply Hsame. by right. }
  cbn [GetVersion_params].
  destruct (Query_first_value req (Name c)) as [[-> Hf]|(v & tl & -> & Hf)];
    destruct (Query_first_value req' (Name c)) as [[-> Hf']|(v' & tl' & -> & Hf')];
    rewrite Hf, Hf' in Hc; simplify_eq/=; try done.
  destruct (0 <? String.length v)%nat; [|done].
  destruct (regexp_Match (Value c) v) as [matched err].
  destruct (bool_decide (err ≠ None) || negb matched); [done|].
  unfold bind, log. cbn. apply Hrest.
Qed.

Lemma GetVersion_versions_first_values `{Runtime} req req' versions :
  (∀ version c, version ∈ versions → c ∈ Params version →
     first_value req' (Name c) = first_value req (Name c)) →
  ∀ w, GetVersion_versions req' versions w = GetVersion_versions req versions w.
Proof.
  induction versions as [|version rest IH]; intros Hsame w; [done|].
  cbn [GetVersion_versions]. unfold bind.
  rewrite (GetVersion_params_first_values req req')
    by (intros c Hc; apply (Hsame version); [by left|done]).
  destruct (GetVersion_params req (Params version) true w) as [[[]|] w1]; try done.
  apply IH. intros v c Hv Hc. apply (Hsame v); [by right|done].
Qed.

Lemma first_value_snoc req k v n :
  n ≠ k ∨ k ∈ (QueryPairs req).*1 →
  first_value (with_QueryPairs req (QueryPairs req ++ [(k, v)])) n = first_value req n.
Proof.
  unfold first_value, with_QueryPairs, values_of. cbn [QueryPairs].
  rewrite filter_app, fmap_app, filter_cons, filter_nil. cbn [fst].
  destruct (decide (k = n)) as [->|Hne]; [|by rewrite app_nil_r].
  intros [Hn|Hin]; [done|].
  apply list_elem_of_fmap in Hin as ([k' v'] & Hk & Hin). cbn in Hk. subst k'.
  assert ((n, v') ∈ filter (λ kv : string * string, kv.1 = n) (QueryPairs req)) as Hf.
  { by apply list_elem_of_filter. }
  by destruct (filter (λ kv : string * string, kv.1 = n) (QueryPairs req));
    [apply elem_of_nil in Hf|].
Qed.

(** X6. [GetVersion] always returns: the index in [val[0]] is never out
    of range. It leaves the random source as it was and only adds to the
    log. It returns [nil] exactly when no variant of the configuration
    matches the request, and a variant it returns is one of the
    configuration that matches. *)
Theorem GetVersion_nil_iff_no_variant_matches `{Runtime} (u : URIConf)
    (req : Request) (w : World) :
  ∃ r w',
    GetVersion u req w = (Return r, w') ∧
    rng w' = rng w ∧ (∃ entries, logged w' = (logged w ++ entries)%list) ∧
    (r = None ↔ Forall (λ v, ¬ matches req v) (Versions u)) ∧
    (∀ v, r = Some v → v ∈ Versions u ∧ matches req v).
Proof.
  destruct (GetVersion_returns u req w) as (r & w' & Hrun & [Hrng Hlog] & Hr).
  exists r, w'. split_and!; try done.
  - destruct r as [v|]; [|done]. split; [done|]. intros Hnone.
    destruct Hr as [Hin Hm]. rewrite Forall_forall in Hnone. by destruct (Hnone v Hin).
  - by intros v ->.
Qed.

(** X7. [GetVersion] reads a request through the first values of the
    query parameters that the constraints of the configuration name, and
    through nothing else: two requests that agree on them get the same
    run, whatever their headers, their other parameters and the later
    values of the parameters are. *)
Theorem GetVersion_reads_first_values `{Runtime} (u : URIConf)
    (req req' : Request) (w : World) :
  (∀ version c, version ∈ Versions u → c ∈ Params version →
     first_value req' (Name c) = first_value req (Name c)) →
  GetVersion u req' w = GetVersion u req w.
Proof. intros Hsame. by apply GetVersion_versions_first_values. Qed.

(** Another header, a second value for [version] and a parameter that no
    constraint names do not change what a [canary] request gets. *)
Lemma GetVersion_reads_first_values_witness :
  @GetVersion Standin.runtime Scenario.conf
    (Scenario.request ["other"]
       [("color", "green"); ("version", "canary"); ("version", "stable")])
    Scenario.w0 =
  @GetVersion Standin.runtime Scenario.conf Scenario.canary Scenario.w0.
Proof.
  apply (@GetVersion_reads_first_values Standin.runtime).
  intros version c Hv Hc.
  apply elem_of_cons in Hv as [->|Hv].
  - apply elem_of_cons in Hc as [->|Hc]; [reflexivity|by apply elem_of_nil in Hc].
  - apply elem_of_cons in Hv as [->|Hv]; [by apply elem_of_nil in Hc|by apply elem_of_nil in Hv].
Defined.

(** X8. A pair added at the end of the query changes nothing for
    [GetVersion] when its key is the name of no constraint of the
    configuration, or when the query already has a pair with that key:
    parameters that are not asked for are ignored, and so are all values
    of a parameter but the first. *)
Theorem GetVersion_ignores_added_pair `{Runtime} (u : URIConf) (req : Request)
    (k v : string) (w : World) :
  (∀ version c, version ∈ Versions u → c ∈ Params version → Name c ≠ k) ∨
  k ∈ (QueryPairs req).*1 →
  GetVersion u (with_QueryPairs req (QueryPairs req ++ [(k, v)])) w =
  GetVersion u req w.
Proof.
  intros Hk. apply GetVersion_versions_first_values. intros version c Hv Hc.
  apply first_value_snoc. destruct Hk as [Hk|Hk]; [left; by eapply Hk|by right].
Qed.

(** A second value for [version], after [canary]. *)
Lemma GetVersion_ignores_added_pair_witness :
  @GetVersion Standin.runtime Scenario.conf
    (with_QueryPairs Scenario.canary
       (QueryPairs Scenario.canary ++ [("version", "stable")])) Scenario.w0 =
  @GetVersion Standin.runtime Scenario.conf Scenario.canary Scenario.w0.
Proof.
  apply (@GetVersion_ignores_added_pair Standin.runtime).
  right. by left.
Defined.

(** X9. A variant without constraints catches every request: with one in
    the configuration [GetVersion] never returns [nil], and an answer of
    the handler is never [NoVariantMatch]. *)
Theorem catch_all_variant_always_resolves `{Runtime} (conf : URIConf)
    (version : VersionInfo) (req : Request) (elapsed : Z) (w : World) :
  version ∈ Versions conf → Params version = [] →
  (∃ v w', GetVersion conf req w = (Return (Some v), w')) ∧
  (∀ resp w', handler conf req elapsed w = (Return resp, w') →
              resp ≠ NoVariantMatch).
Proof.
  intros Hin Hparams.
  assert (matches req version) as Hm.
  { unfold matches. rewrite Hparams. constructor. }
  destruct (GetVersion_returns conf req w) as (r & w1 & Hrun & _ & Hr).
  destruct r as [v|].
  2: { rewrite Forall_forall in Hr. by destruct (Hr version Hin). }
  split; [by eauto|]. intros resp w'.
  destruct (MatchHeaders conf req) eqn:Hgate.
  - rewrite (handler_resolved _ _ _ _ w1 v) by done. unfold handler_after_getValue.
    destruct (getValue elapsed v w1) as [[x|msg] w2]; [|done]. by intros [= <- _].
  - rewrite handler_unauthorized by done. by intros [= <- _].
Qed.

(** [V2] is the catch-all of the scenario. *)
Lemma catch_all_variant_always_resolves_witness :
  (∃ v w', @GetVersion Standin.runtime Scenario.conf Scenario.stable Scenario.w0 =
             (Return (Some v), w')) ∧
  (∀ resp w', @handler Standin.runtime Scenario.conf Scenario.stable 0 Scenario.w0 =
                (Return resp, w') → resp ≠ NoVariantMatch).
Proof.
  apply (@catch_all_variant_always_resolves Standin.runtime Scenario.conf Scenario.V2).
  - right. by left.
  - reflexivity.
Defined.

(** X10. The handler draws from the random source for a gauge, once, and
    for nothing else. When the gate fails, when no variant is resolved or
    when the variant resolved is no gauge, the handler answers and the
    random source is as it was. When the gate passes and the variant
    resolved is a gauge, the random source is the one that the call of
    the sampler leaves, with the shape parameters of [getValue]; the
    handler answers with shift + sample * multiplier when the sampler
    returns a sample, and panics when the sampler does. *)
Theorem handler_draws_only_for_gauge `{Runtime} (conf : URIConf) (req : Request)
    (elapsed : Z) (w : World) :
  ∃ r w1,
    GetVersion conf req w = (Return r, w1) ∧
    (MatchHeaders conf req = false ∨ r = None ∨
     (∃ version, r = Some version ∧ Type_ (Metric version) ≠ "gauge") →
     ∃ resp w', handler conf req elapsed w = (Return resp, w') ∧ rng w' = rng w) ∧
    (MatchHeaders conf req = true →
     ∀ version, r = Some version → Type_ (Metric version) = "gauge" →
       let d := Beta_Rand ((Seconds elapsed + 1.0) * Alpha (Metric version))%float
                          ((Seconds elapsed + 1.0) * Beta (Metric version))%float
                          (rng w) in
       ∃ w',
         handler conf req elapsed w =
           (match d.1 with
            | Return sample =>
                Return (NumericValue
                          (Shift (Metric version) +
                           sample * Multiplier (Metric version))%float)
            | Panic msg => Panic msg
            end, w') ∧
         rng w' = d.2).
Proof.
  destruct (GetVersion_returns conf req w) as (r & w1 & Hrun & [Hrng _] & _).
  exists r, w1. split; [done|]. split.
  - destruct (MatchHeaders conf req) eqn:Hgate.
    2: { intros _. exists AuthorizationFailure, w.
         split; [by apply handler_unauthorized|done]. }
    intros [?|[->|(version & -> & Hng)]]; [done| |].
    + exists NoVariantMatch, w1. split; [by eapply handler_no_match|done].
    + destruct (decide (Type_ (Metric version) = "counter")) as [Hc|Hc].
      * eexists _, _. split.
        -- eapply handler_value; [done|done|]. by apply getValue_counter.
        -- done.
      * eexists _, _. split.
        -- eapply handler_value; [done|done|]. by apply getValue_fallback.
        -- done.
  - intros Hgate version -> Hg d.
    rewrite (handler_resolved _ _ _ _ w1 version) by done.
    rewrite getValue_gauge by done. cbn zeta. rewrite Hrng. fold d.
    unfold handler_after_getValue. destruct d.1 as [sample|msg]; by eexists.
Qed.

(** The variant that [GetVersion] returns, as a function of the list. *)
Lemma GetVersion_versions_find `{Runtime} req versions :
  ∀ w, ∃ w',
    GetVersion_versions req versions w =
      (Return (List.find (λ v, forallb (satisfiedb req) (Params v)) versions), w') ∧
    rng w' = rng w.
Proof.
  induction versions as [|version rest IH]; intros w; [by exists w|].
  cbn [GetVersion_versions List.find]. unfold bind.
  destruct (GetVersion_params_run req (Params version) true w) as (w1 & -> & [Hrng _]).
  cbn [andb]. destruct (forallb (satisfiedb req) (Params version)); [by exists w1|].
  destruct (IH w1) as (w' & -> & Hrng'). exists w'. split; [done|congruence].
Qed.

Lemma find_swap {A} (f : A → bool) (pre : list A) x y post :
  f x && f y = false →
  List.find f (pre ++ x :: y :: post) = List.find f (pre ++ y :: x :: post).
Proof.
  intros Hxy. induction pre as [|a pre IH]; cbn.
  - by destruct (f x), (f y).
  - by rewrite IH.
Qed.

(** X15. The order of two neighbouring variants matters only for the
    requests that both of them match: for a request that at most one of
    the two matches, [GetVersion] returns the same variant with the two in
    either order. *)
Theorem GetVersion_swap_when_not_both_match `{Runtime} (u : URIConf)
    (req : Request) (w : World) (pre post : list VersionInfo)
    (v1 v2 : VersionInfo) :
  Versions u = (pre ++ v1 :: v2 :: post)%list →
  ¬ (matches req v1 ∧ matches req v2) →
  ∃ r w1 w2,
    GetVersion u req w = (Return r, w1) ∧
    GetVersion (with_Versions u (pre ++ v2 :: v1 :: post)) req w = (Return r, w2) ∧
    rng w1 = rng w2.
Proof.
  intros Hu Hnot. unfold GetVersion. cbn [with_Versions Versions]. rewrite Hu.
  destruct (GetVersion_versions_find req (pre ++ v1 :: v2 :: post) w) as (w1 & -> & Hr1).
  destruct (GetVersion_versions_find req (pre ++ v2 :: v1 :: post) w) as (w2 & -> & Hr2).
  eexists _, w1, w2. split_and!; [done| |congruence].
  rewrite (find_swap _ pre v1 v2 post); [done|].
  apply not_true_is_false. intros [H1 H2]%andb_true_iff.
  apply Hnot. by rewrite <- !satisfiedb_matches.
Qed.

(** [V1] asks for [canary], [Vstable] for [stable]: no request gets both,
    so their order is free. *)
Lemma GetVersion_swap_when_not_both_match_witness :
  let Vstable :=
    {| Params := [ {| Name := "version"; Value := "stable" |} ];
       Metric := Metric Scenario.V2 |} in
  ∃ r w1 w2,
    @GetVersion Standin.runtime
      (with_Versions Scenario.conf [Scenario.V1; Vstable]) Scenario.stable
      Scenario.w0 = (Return r, w1) ∧
    @GetVersion Standin.runtime
      (with_Versions Scenario.conf [Vstable; Scenario.V1]) Scenario.stable
      Scenario.w0 = (Return r, w2) ∧
    @rng Standin.runtime w1 = @rng Standin.runtime w2.
Proof.
  intros Vstable.
  apply (@GetVersion_swap_when_not_both_match Standin.runtime
           (with_Versions Scenario.conf [Scenario.V1; Vstable])
           Scenario.stable Scenario.w0 [] [] Scenario.V1 Vstable).
  - reflexivity.
  - intros [Hcanary _]. apply (@satisfiedb_matches Standin.runtime) in Hcanary.
    discriminate Hcanary.
Defined.

(** ** More on the header gate *)

Lemma Header_Get_Set_other `{Runtime} h key value key' :
  CanonicalMIMEHeaderKey key' ≠ CanonicalMIMEHeaderKey key →
  Header_Get (Header_Set h key value) key' = Header_Get h key'.
Proof. intros Hne. unfold Header_Get, Header_Set. by rewrite lookup_insert_ne. Qed.

Lemma Header_Get_Del_other `{Runtime} h key key' :
  CanonicalMIMEHeaderKey key' ≠ CanonicalMIMEHeaderKey key →
  Header_Get (Header_Del h key) key' = Header_Get h key'.
Proof. intros Hne. unfold Header_Get, Header_Del. by rewrite lookup_delete_ne. Qed.

Lemma Header_Get_canonical `{Runtime} h key key' :
  CanonicalMIMEHeaderKey key = CanonicalMIMEHeaderKey key' →
  Header_Get h key = Header_Get h key'.
Proof. unfold Header_Get. by intros ->. Qed.

(** X11. Go ranges over the header map of the configuration in an order
    of its own choosing. Whatever the order, the loop of [MatchHeaders]
    gives the same answer: its early [return false] does not make the
    answer depend on which failing header is met first. *)
Theorem MatchHeaders_any_order `{Runtime} (u : URIConf) (req : Request)
    (entries : list (string * string)) :
  entries ≡ₚ map_to_list (Headers u) →
  MatchHeaders_range entries req = MatchHeaders u req.
Proof. intros Hp. by apply MatchHeaders_range_Permutation. Qed.

(** Two required headers, taken in the one order and in the other. *)
Lemma MatchHeaders_any_order_witness :
  let entries := [("x-api-key", "secret"); ("accept", "json")] in
  let u := {| Versions := []; Headers := list_to_map entries; URI := "/";
              Provider := "Prometheus" |} in
  @MatchHeaders_range Standin.runtime entries Scenario.canary =
    @MatchHeaders Standin.runtime u Scenario.canary ∧
  @MatchHeaders_range Standin.runtime (reverse entries) Scenario.canary =
    @MatchHeaders Standin.runtime u Scenario.canary.
Proof.
  intros entries u.
  assert (NoDup entries.*1) as Hnd.
  { repeat constructor; set_solver. }
  split.
  - apply (@MatchHeaders_any_order Standin.runtime u). symmetry.
    by apply map_to_list_to_map.
  - apply (@MatchHeaders_any_order Standin.runtime u).
    rewrite reverse_Permutation. symmetry. by apply map_to_list_to_map.
Defined.

(** X12. [MatchHeaders] looks only at the headers that the configuration
    names: setting or removing a header whose canonical name is that of
    no configured header does not change its answer. *)
Theorem MatchHeaders_ignores_other_headers `{Runtime} (u : URIConf)
    (req : Request) (key value : string) :
  (∀ k v, Headers u !! k = Some v →
     CanonicalMIMEHeaderKey k ≠ CanonicalMIMEHeaderKey key) →
  MatchHeaders u (with_Header req (Header_Set (Header req) key value)) =
    MatchHeaders u req ∧
  MatchHeaders u (with_Header req (Header_Del (Header req) key)) =
    MatchHeaders u req.
Proof.
  intros Hother. split; apply eq_true_iff_eq; rewrite !MatchHeaders_true;
    cbn [with_Header Header]; split; intros Hall k v Hk.
  - rewrite <- (Hall k v Hk). symmetry. apply Header_Get_Set_other. by eapply Hother.
  - rewrite Header_Get_Set_other by by eapply Hother. by apply Hall.
  - rewrite <- (Hall k v Hk). symmetry. apply Header_Get_Del_other. by eapply Hother.
  - rewrite Header_Get_Del_other by by eapply Hother. by apply Hall.
Qed.

(** The scenario asks for [x-api-key] only: an [Accept] header is free. *)
Lemma MatchHeaders_ignores_other_headers_witness :
  @MatchHeaders Standin.runtime Scenario.conf
    (with_Header Scenario.canary
       (@Header_Set Standin.runtime (Header Scenario.canary) "accept" "text/html")) =
    @MatchHeaders Standin.runtime Scenario.conf Scenario.canary ∧
  @MatchHeaders Standin.runtime Scenario.conf
    (with_Header Scenario.canary
       (@Header_Del Standin.runtime (Header Scenario.canary) "accept")) =
    @MatchHeaders Standin.runtime Scenario.conf Scenario.canary.
Proof.
  apply (@MatchHeaders_ignores_other_headers Standin.runtime).
  intros k v Hk. unfold Scenario.conf in Hk. cbn [Headers] in Hk.
  apply lookup_singleton_Some in Hk as [<- _]. discriminate.
Defined.

(** X13. [Header.Get] looks a name up by its canonical form. So when the
    configuration names one header twice, under two spellings with the
    same canonical form, and expects two different values, no request
    passes [MatchHeaders]. *)
Theorem MatchHeaders_conflicting_spellings_never_pass `{Runtime} (u : URIConf)
    (req : Request) (k1 k2 v1 v2 : string) :
  Headers u !! k1 = Some v1 → Headers u !! k2 = Some v2 →
  CanonicalMIMEHeaderKey k1 = CanonicalMIMEHeaderKey k2 → v1 ≠ v2 →
  MatchHeaders u req = false.
Proof.
  intros H1 H2 Hcanon Hne. apply not_true_is_false. rewrite MatchHeaders_true.
  intros Hall. apply Hne. rewrite <- (Hall k1 v1 H1), <- (Hall k2 v2 H2).
  by apply Header_Get_canonical.
Qed.

(** [x-api-key] and [X-Api-Key], with two expected values. *)
Lemma MatchHeaders_conflicting_spellings_never_pass_witness :
  @MatchHeaders Standin.runtime
    {| Versions := [];
       Headers := <["x-api-key" := "secret"]> {[ "X-Api-Key" := "other" ]};
       URI := "/"; Provider := "Prometheus" |}
    Scenario.canary = false.
Proof.
  apply (@MatchHeaders_conflicting_spellings_never_pass Standin.runtime _ _
           "x-api-key" "X-Api-Key" "secret" "other").
  - apply lookup_insert_eq.
  - cbn [Headers]. rewrite lookup_insert_ne by discriminate. apply lookup_singleton_eq.
  - reflexivity.
  - discriminate.
Defined.

(** ** More on the value generator *)

Lemma SF64mul_nonneg_finite x m e :
  F64.sf_nonneg x → F64.sf_nonneg (SF64mul x (S754_finite false m e)).
Proof.
  destruct x as [[]|[]| |[] mx ex]; try done; intros _.
  unfold SF64mul, SFmul. cbn [xorb]. by apply F64.binary_round_aux_nonneg.
Qed.

Lemma positive_finite_float x :
  (0 <? x)%float = true → (x <? infinity)%float = true →
  ∃ m e, Prim2SF x = S754_finite false m e.
Proof.
  intros Hpos%F64.ltb_zero_pos. rewrite FloatAxioms.ltb_spec.
  destruct Hpos as [->|(m & e & -> & _)]; [done|eauto].
Qed.

(** X14. A counter whose rate is positive and finite never yields a
    negative number, nor a value that is no number: for every elapsed
    duration that is not negative, the value is at least 0. *)
Theorem getValue_counter_nonnegative `{Runtime} (version : VersionInfo)
    (elapsed : Z) (w : World) :
  Type_ (Metric version) = "counter" →
  0 <= elapsed →
  (0 <? Rate (Metric version))%float = true →
  (Rate (Metric version) <? infinity)%float = true →
  ∃ v, getValue elapsed version w = (Return v, w) ∧ (0 <=? v)%float = true.
Proof.
  intros Hk Hd Hpos Hfin. eexists. split; [by apply getValue_counter|].
  apply F64.nonneg_leb_zero. rewrite FloatAxioms.mul_spec.
  destruct (positive_finite_float _ Hpos Hfin) as (m & e & ->).
  apply SF64mul_nonneg_finite, F64.leb_zero_nonneg. by apply Seconds_nonneg.
Qed.

(** The counter of the scenario, of rate 2, after a second and a half. *)
Lemma getValue_counter_nonnegative_witness :
  ∃ v, @getValue Standin.runtime 1500000000 Scenario.V1 Scenario.w0 =
         (Return v, Scenario.w0) ∧ (0 <=? v)%float = true.
Proof.
  apply (@getValue_counter_nonnegative Standin.runtime).
  - reflexivity.
  - lia.
  - reflexivity.
  - reflexivity.
Defined.
